(** * thoonk.js feeds: publish and retract over a Redis store

    A shallow embedding of [feed.js]: the functions [feedPublish],
    [feedRetract], [feedGetIds] and [feedGetItem], written as trees of
    callbacks over the replies of the store, an executable model of the
    Redis commands they issue (sorted set, hash, counter, pub/sub, WATCH and
    MULTI/EXEC), and a scheduler that lets other clients write between any
    two round trips of the feed; and the functions [feedReady] and
    [feedSubscribe], written over what a Feed object has registered with
    the event loop. *)

From stdpp Require Import base list strings gmap sorting.
From Stdlib Require Import ZArith Lia.

#[local] Open Scope Z_scope.
#[local] Set Warnings "-register-all".

(** ** JavaScript values *)

Module JS.

(** The values that travel between [feed.js] and the Redis client: command
    arguments and replies. *)
Inductive value : Type :=
| Undefined
| Null
| Num (z : Z)
| Str (s : string)
| Arr (l : list value).

(** [if (v)]: ToBoolean. An array is truthy even when it is empty, the
    number 0 and the empty string are not. *)
Definition truthy (v : value) : bool :=
  match v with
  | Undefined | Null => false
  | Num z => negb (z =? 0)
  | Str s => negb (String.eqb s "")
  | Arr _ => true
  end.

(** Relative index of [Array.prototype.slice]: a negative index counts from
    the end, and both ends are clamped to the array. *)
Definition rel_index (len k : Z) : Z :=
  if k <? 0 then Z.max (len + k) 0 else Z.min k len.

(** [a.slice(b, e)] *)
Definition slice {A : Type} (a : list A) (b e : Z) : list A :=
  let len := Z.of_nat (length a) in
  let from := rel_index len b in
  let upto := rel_index len e in
  take (Z.to_nat (upto - from)) (drop (Z.to_nat from) a).

(** [a[0]] *)
Definition first (a : list value) : value := default Undefined (head a).

(** [s + t] on strings *)
Definition concat (s t : string) : string := (s +:+ t)%string.

(** The string ["\x00"] *)
Definition nul : string := String (Ascii.ascii_of_nat 0) EmptyString.

End JS.

Import JS.

(** ** The Redis server *)

Module Redis.

Inductive cmd_name : Type :=
| WATCH | UNWATCH
| ZRANGE | ZRANK | ZADD | ZREM
| HSET | HGET | HDEL
| INCR
| PUBLISH.

(** A command as the client sends it: its name and the arguments of the
    call, in order. *)
Record command : Type := Cmd { cmd : cmd_name; args : list value }.

(** A sorted set: members with their scores, kept in increasing order of
    score, members of equal score in lexicographic order. *)
Abbreviation zset := (list (string * Z)).

Definition entry_lt (m : string) (s : Z) (e : string * Z) : bool :=
  (s <? e.2) || ((s =? e.2) && String.ltb m e.1).

Fixpoint zset_insert (m : string) (s : Z) (zs : zset) : zset :=
  match zs with
  | [] => [(m, s)]
  | e :: rest =>
      if entry_lt m s e then (m, s) :: e :: rest
      else e :: zset_insert m s rest
  end.

Definition zset_rem (m : string) (zs : zset) : zset :=
  filter (λ e, e.1 ≠ m) zs.

Definition zset_mem (m : string) (zs : zset) : bool :=
  bool_decide (m ∈ zs.*1).

(** ZADD: a member already present is moved to its new score. *)
Definition zset_add (m : string) (s : Z) (zs : zset) : zset :=
  zset_insert m s (zset_rem m zs).

(** ZRANGE key start stop: negative indexes count from the end; the range
    is inclusive and empty when it starts after its end. *)
Definition zset_range (zs : zset) (start stop : Z) : list string :=
  let len := Z.of_nat (length zs) in
  let start := if start <? 0 then len + start else start in
  let stop := if stop <? 0 then len + stop else stop in
  let start := if start <? 0 then 0 else start in
  if (stop <? start) || (len <=? start) then []
  else
    let stop := if len <=? stop then len - 1 else stop in
    take (Z.to_nat (stop - start + 1)) (drop (Z.to_nat start) zs.*1).

Fixpoint zset_rank (m : string) (zs : zset) : option Z :=
  match zs with
  | [] => None
  | e :: rest =>
      if String.eqb e.1 m then Some 0
      else (λ r, r + 1) <$> zset_rank m rest
  end.

(** The keyspace, split by the type of the values: a feed's keys differ in
    their prefix, so a command of the feed never meets a key of another
    type. [channels] gives the number of subscribers of a channel and
    [delivered] the messages published so far, oldest first. *)
Record db : Type := Db {
  zsets : gmap string zset;
  hashes : gmap string (gmap string string);
  counters : gmap string Z;
  channels : gmap string Z;
  delivered : list (string * string)
}.

Definition zset_at (d : db) (k : string) : zset := default [] (zsets d !! k).
Definition hash_at (d : db) (k : string) : gmap string string :=
  default ∅ (hashes d !! k).
Definition counter_at (d : db) (k : string) : Z := default 0 (counters d !! k).

Definition set_zset (k : string) (zs : zset) (d : db) : db :=
  Db (<[k := zs]> (zsets d)) (hashes d) (counters d) (channels d) (delivered d).
Definition set_hash (k : string) (h : gmap string string) (d : db) : db :=
  Db (zsets d) (<[k := h]> (hashes d)) (counters d) (channels d) (delivered d).
Definition set_counter (k : string) (n : Z) (d : db) : db :=
  Db (zsets d) (hashes d) (<[k := n]> (counters d)) (channels d) (delivered d).
Definition deliver (ch msg : string) (d : db) : db :=
  Db (zsets d) (hashes d) (counters d) (channels d) (delivered d ++ [(ch, msg)]).

Definition of_bool (b : bool) : value := Num (if b then 1 else 0).

(** One command against the keyspace, with the reply the client hands to
    the callback. The server checks the number of arguments of every
    command against its table before running it; a command that fails the
    check changes nothing and is answered with an error, which the client
    passes as [err], leaving [reply] undefined. *)
Definition exec_cmd (c : command) (d : db) : db * value :=
  match c with
  | Cmd ZRANGE [Str k; Num start; Num stop] =>
      (d, Arr (Str <$> zset_range (zset_at d k) start stop))
  | Cmd ZRANK [Str k; Str m] =>
      (d, from_option Num Null (zset_rank m (zset_at d k)))
  | Cmd ZADD [Str k; Num s; Str m] =>
      (set_zset k (zset_add m s (zset_at d k)) d,
       of_bool (negb (zset_mem m (zset_at d k))))
  | Cmd ZREM [Str k; Str m] =>
      (set_zset k (zset_rem m (zset_at d k)) d,
       of_bool (zset_mem m (zset_at d k)))
  | Cmd HSET [Str k; Str f; Str v] =>
      (set_hash k (<[f := v]> (hash_at d k)) d,
       of_bool (bool_decide (hash_at d k !! f = None)))
  | Cmd HGET [Str k; Str f] =>
      (d, from_option Str Null (hash_at d k !! f))
  | Cmd HDEL [Str k; Str f] =>
      (set_hash k (delete f (hash_at d k)) d,
       of_bool (bool_decide (is_Some (hash_at d k !! f))))
  | Cmd INCR [Str k] =>
      (set_counter k (counter_at d k + 1) d, Num (counter_at d k + 1))
  | Cmd PUBLISH [Str ch; Str msg] =>
      (deliver ch msg d, Num (default 0 (channels d !! ch)))
  | _ => (d, Undefined)
  end.

(** The commands queued by MULTI, run in order at EXEC. *)
Fixpoint exec_batch (q : list command) (d : db) : db * list value :=
  match q with
  | [] => (d, [])
  | c :: q' =>
      let '(d1, r) := exec_cmd c d in
      let '(d2, rs) := exec_batch q' d1 in
      (d2, r :: rs)
  end.

(** The state the server keeps for one connection: the keys it watches and
    whether one of them was modified since it was watched. *)
Record conn : Type := Conn { watched : list string; dirty : bool }.

Definition idle : conn := Conn [] false.

Definition key_changed (d d' : db) (k : string) : bool :=
  bool_decide (zset_at d k ≠ zset_at d' k ∨ hash_at d k ≠ hash_at d' k
               ∨ counter_at d k ≠ counter_at d' k).

(** A write that changes a watched key marks the connection. *)
Definition touch (d d' : db) (c : conn) : conn :=
  Conn (watched c)
       (dirty c || existsb (key_changed d d') (watched c)).

(** A command of another client. *)
Definition foreign_cmd (c : command) (s : db * conn) : db * conn :=
  let d' := (exec_cmd c s.1).1 in (d', touch s.1 d' s.2).

(** A command of this connection outside MULTI. WATCH names the key to
    watch, UNWATCH takes no argument. *)
Definition serve (c : command) (s : db * conn) : (db * conn) * value :=
  match c with
  | Cmd WATCH [Str k] => ((s.1, Conn (k :: watched s.2) (dirty s.2)), Str "OK")
  | Cmd UNWATCH [] => ((s.1, idle), Str "OK")
  | _ => let '(d', r) := exec_cmd c s.1 in ((d', touch s.1 d' s.2), r)
  end.

(** MULTI ... EXEC: the queue runs as one step unless the connection is
    marked, in which case nothing runs and the reply is null. Either way
    the connection stops watching. *)
Definition serve_exec (q : list command) (s : db * conn) : (db * conn) * value :=
  if dirty s.2 then ((s.1, idle), Null)
  else let '(d', rs) := exec_batch q s.1 in ((d', idle), Arr rs).

End Redis.

Import Redis.

(** ** The feed's callbacks *)

Module Feed.

(** Where a retry re-enters: [publish_attempt()] inside [feedPublish], or
    [this.retract(id, callback)], the locked method of the Feed object. *)
Inductive label : Type := L_publish_attempt | L_retract.

(** The body of a function of [feed.js], up to the point where it returns
    for good or calls itself again. A callback is a function of the reply. *)
Inductive proc : Type :=
| Send (c : command) (k : value → proc)
    (* this.mredis.<cmd>(args, function(err, reply) { k }) *)
| Post (c : command) (p : proc)
    (* this.mredis.<cmd>(args); p *)
| Multi (p : proc)
    (* var m = this.mredis.multi(); p *)
| Queue (c : command) (p : proc)
    (* m.<cmd>(args); p *)
| Exec (k : value → proc)
    (* m.exec(function(err, reply) { k }) *)
| Now (k : Z → proc)
    (* Date.now() *)
| Acquire (p : proc)
    (* the wrapper made by this.thoonk.lock.require(f, this) *)
| Unlock (p : proc)
    (* this.thoonk.lock.unlock(); p *)
| Callback (a : list value) (p : proc)
    (* callback(a); p *)
| Goto (l : label)
| Throw
    (* a TypeError *)
| Return.

(** A Feed object: its name and the [max_length] of its configuration,
    [None] when the configuration has no such field. *)
Record feed : Type := { name : string; max_length : option Z }.

Definition ids_key (f : feed) : string := concat "feed.ids:" (name f).
Definition items_key (f : feed) : string := concat "feed.items:" (name f).
Definition publishes_key (f : feed) : string := concat "feed.publishes:" (name f).
Definition publish_chan (f : feed) : string := concat "feed.publish:" (name f).
Definition edit_chan (f : feed) : string := concat "feed.edit:" (name f).
Definition retract_chan (f : feed) : string := concat "feed.retract:" (name f).

(** [delete_ids.forEach(function (delete_id, idx) { ... })] of
    [publish_attempt], followed by [p]. *)
Definition queue_deletes (f : feed) (delete_ids : list value) (p : proc) : proc :=
  foldr (λ delete_id rest,
           Queue (Cmd ZREM [Str (ids_key f); delete_id])
          (Queue (Cmd HDEL [Str (items_key f); delete_id])
          (Queue (Cmd PUBLISH [Str (retract_chan f); delete_id]) rest)))
        p delete_ids.

(** The three writes of a publish. *)
Definition queue_item (f : feed) (item id : string) (p : proc) : proc :=
  Now (λ now,
  Queue (Cmd ZADD [Str (ids_key f); Num now; Str id])
 (Queue (Cmd INCR [Str (publishes_key f)])
 (Queue (Cmd HSET [Str (items_key f); Str id; Str item]) p))).

(** The channel chosen by [if (reply.slice(-3,-2)[0])]. *)
Definition notice_chan (f : feed) (reply : list value) : string :=
  if truthy (first (slice reply (-3) (-2))) then publish_chan f
  else edit_chan f.

(** The end of both exec callbacks of [feedPublish]: the notice, then the
    caller's callback. *)
Definition announce (f : feed) (item id : string) (callback : bool)
    (reply : list value) : proc :=
  Post (Cmd PUBLISH
          [Str (notice_chan f reply); Str (concat id (concat nul item))])
       (if callback then Callback [Str item; Str id] Return else Return).

(** The callback of [pmulti.exec] in [publish_attempt]. *)
Definition publish_exec_cb (f : feed) (item id : string) (callback : bool)
    (reply : value) : proc :=
  Unlock
    (if negb (truthy reply) then Goto L_publish_attempt
     else match reply with
          | Arr replies => announce f item id callback replies
          | _ => Throw
          end).

(** The callback of [zrange] in [publish_attempt]; [forEach] on anything
    but an array is a TypeError. *)
Definition publish_range_cb (f : feed) (item id : string) (callback : bool)
    (reply : value) : proc :=
  match reply with
  | Arr delete_ids =>
      queue_deletes f delete_ids
     (queue_item f item id
     (Exec (publish_exec_cb f item id callback)))
  | _ => Throw
  end.

Definition publish_attempt (f : feed) (max_length : Z) (item id : string)
    (callback : bool) : proc :=
  Post (Cmd WATCH [Str (ids_key f)])
 (Send (Cmd ZRANGE [Str (ids_key f); Num 0; Num (- max_length)])
       (publish_range_cb f item id callback)).

(** The callback of [pmulti.exec] on the unbounded path: no test of the
    reply before [reply.slice]. *)
Definition publish_exec_cb_unbounded (f : feed) (item id : string)
    (callback : bool) (reply : value) : proc :=
  Unlock
    match reply with
    | Arr replies => announce f item id callback replies
    | _ => Throw
    end.

(** [if (max_length)]: the bound of a bounded feed. *)
Definition bounded (f : feed) : option Z :=
  match max_length f with
  | Some n => if truthy (Num n) then Some n else None
  | None => None
  end.

(** [feedPublish(item, id, callback)]; [uuid] is what [uuid()] returns when
    it is called, [id = None] stands for a null or missing id and
    [callback = false] for a missing callback. The Multi object is made
    once, before the first attempt. *)
Definition assigned_id (uuid : string) (id : option string) : string :=
  default uuid id.

Definition feedPublish (f : feed) (uuid item : string) (id : option string)
    (callback : bool) : proc :=
  let id := assigned_id uuid id in
  Multi
    (match bounded f with
     | Some _ => Goto L_publish_attempt
     | None =>
         queue_item f item id
        (Exec (publish_exec_cb_unbounded f item id callback))
     end).

(** The callback of [rmulti.exec] in [feedRetract]; the retry goes through
    [process.nextTick] to [this.retract]. *)
Definition retract_exec_cb (id : string) (callback : bool) (reply : value)
    : proc :=
  Unlock
    (if negb (truthy reply) then Goto L_retract
     else if callback then Callback [Str id] Return else Return).

(** The callback of [zrank] in [feedRetract]; the last line calls
    [callback] without testing it. *)
Definition retract_rank_cb (f : feed) (id : string) (callback : bool)
    (reply : value) : proc :=
  if truthy reply then
    Multi
   (Queue (Cmd ZREM [Str (ids_key f); Str id])
   (Queue (Cmd HDEL [Str (items_key f); Str id])
   (Queue (Cmd PUBLISH [Str (retract_chan f); Str id])
   (Exec (retract_exec_cb id callback)))))
  else
    Unlock
   (Post (Cmd UNWATCH [Str (ids_key f)])
   (if callback then Callback [Str id; Str "Id does not exist."] Return
    else Throw)).

(** [feedRetract(id, callback)]: [zrank] is called with the key and the
    callback only. *)
Definition feedRetract (f : feed) (id : string) (callback : bool) : proc :=
  Send (Cmd WATCH [Str (ids_key f)]) (λ _,
  Send (Cmd ZRANK [Str (ids_key f)]) (retract_rank_cb f id callback)).

(** [feedGetIds(callback)] and [feedGetItem(id, callback)] *)
Definition feedGetIds (f : feed) : proc :=
  Send (Cmd ZRANGE [Str (ids_key f); Num 0; Num (-1)]) (λ reply,
    Callback [Null; reply] Return).

Definition feedGetItem (f : feed) (id : string) : proc :=
  Send (Cmd HGET [Str (items_key f); Str id]) (λ reply,
    Callback [Null; reply] Return).

(** The methods of a Feed object: the constructor wraps [publish] and
    [retract] in the lock. *)
Definition publish (f : feed) (uuid item : string) (id : option string)
    (callback : bool) : proc :=
  Acquire (feedPublish f uuid item id callback).

Definition retract (f : feed) (id : string) (callback : bool) : proc :=
  Acquire (feedRetract f id callback).

End Feed.

Import Feed.

(** ** Running a call against the server *)

Module Run.

(** What an observer of one call sees, in order: the lock taken and
    released, each command with its reply, each EXEC with the queue it
    carried, its reply and the keyspace before and after it, and the
    caller's callback. *)
Inductive event : Type :=
| Acquired
| Released
| Sent (c : command) (reply : value)
| Executed (q : list command) (reply : value) (before after : db)
| Called (a : list value)
| Thrown.

(** What happens elsewhere while one command of the feed travels to the
    server: time passes and other clients run commands. *)
Record tick : Type := Tick { elapsed : Z; foreign : list command }.

(** The server, this client's connection, the queue of the Multi object in
    use, the clock, what the other clients are about to do, and the events
    so far. *)
Record world : Type := World {
  store : db;
  link : conn;
  multi : list command;
  clock : Z;
  sched : list tick;
  trace : list event
}.

Definition log (e : event) (w : world) : world :=
  World (store w) (link w) (multi w) (clock w) (sched w) (trace w ++ [e]).

Definition set_multi (q : list command) (w : world) : world :=
  World (store w) (link w) q (clock w) (sched w) (trace w).

Definition set_server (s : db * conn) (w : world) : world :=
  World s.1 s.2 (multi w) (clock w) (sched w) (trace w).

Definition foreign_cmds (cs : list command) (s : db * conn) : db * conn :=
  foldl (λ s c, foreign_cmd c s) s cs.

(** The next tick happens. *)
Definition arrive (w : world) : world :=
  match sched w with
  | [] => w
  | t :: rest =>
      let s := foreign_cmds (foreign t) (store w, link w) in
      World s.1 s.2 (multi w) (clock w + elapsed t) rest (trace w)
  end.

(** A command travels to the server, is served, and its reply comes back. *)
Definition send (c : command) (w : world) : world * value :=
  let w := arrive w in
  let sr := serve c (store w, link w) in
  (log (Sent c sr.2) (set_server sr.1 w), sr.2).

(** [exec] sends the queue of the Multi object between MULTI and EXEC. The
    client does not empty the queue: the same Multi object can be executed
    again, and a command added later joins those already sent. *)
Definition exec (w : world) : world * value :=
  let w := arrive w in
  let sr := serve_exec (multi w) (store w, link w) in
  (log (Executed (multi w) sr.2 (store w) sr.1.1) (set_server sr.1 w), sr.2).

Inductive outcome : Type := Finished | Jump (l : label) | Failed.

(** One pass through a function body and the callbacks it registers. *)
Fixpoint run_proc (p : proc) (w : world) : world * outcome :=
  match p with
  | Send c k => let '(w', r) := send c w in run_proc (k r) w'
  | Post c p => run_proc p (send c w).1
  | Multi p => run_proc p (set_multi [] w)
  | Queue c p => run_proc p (set_multi (multi w ++ [c]) w)
  | Exec k => let '(w', r) := exec w in run_proc (k r) w'
  | Now k => run_proc (k (clock w)) w
  | Acquire p => run_proc p (log Acquired w)
  | Unlock p => run_proc p (log Released w)
  | Callback a p => run_proc p (log (Called a) w)
  | Goto l => (w, Jump l)
  | Throw => (log Thrown w, Failed)
  | Return => (w, Finished)
  end.

(** A call on a Feed object. *)
Inductive call : Type :=
| Publish (uuid item : string) (id : option string) (callback : bool)
| Retract (id : string) (callback : bool)
| GetIds
| GetItem (id : string).

Definition entry (f : feed) (c : call) : proc :=
  match c with
  | Publish uuid item id callback => publish f uuid item id callback
  | Retract id callback => retract f id callback
  | GetIds => feedGetIds f
  | GetItem id => feedGetItem f id
  end.

(** Where the labels of a call lead. *)
Definition target (f : feed) (c : call) (l : label) : proc :=
  match c, l with
  | Publish uuid item id callback, L_publish_attempt =>
      match bounded f with
      | Some n => publish_attempt f n item (assigned_id uuid id) callback
      | None => Throw
      end
  | Retract id callback, L_retract => retract f id callback
  | _, _ => Throw
  end.

(** The passes of a call, one after the other, at most [fuel] of them. The
    result tells whether the call ended without an exception. *)
Fixpoint run (fuel : nat) (f : feed) (c : call) (p : proc) (w : world)
    : option (world * bool) :=
  match fuel with
  | O => None
  | S fuel' =>
      match run_proc p w with
      | (w', Jump l) => run fuel' f c (target f c l) w'
      | (w', Finished) => Some (w', true)
      | (w', Failed) => Some (w', false)
      end
  end.

(** A pass is repeated only after a rejected EXEC, and an EXEC is rejected
    only when the connection was already marked or a tick marked it, so
    three passes more than there are ticks are always enough. *)
Definition perform (f : feed) (c : call) (w : world) : option (world * bool) :=
  run (3 + length (sched w)) f c (entry f c) w.




(** A world at rest: the given keyspace, no watch, no event yet. *)
Definition start (d : db) (now : Z) (s : list tick) : world :=
  World d idle [] now s [].

End Run.

Import Run.

(** ** Reading a trace *)

Module Observe.

(** The events that a call added to the trace. *)
Definition events_since (w w' : world) : list event :=
  drop (length (trace w)) (trace w').

(** An EXEC that was not rejected: its queue, the replies, and the keyspace
    before and after it. *)
Record commit : Type := Commit {
  batch : list command;
  replies : list value;
  before : db;
  after : db
}.

Definition commit_of (e : event) : option commit :=
  match e with
  | Executed q (Arr rs) d d' => Some (Commit q rs d d')
  | _ => None
  end.

Definition commits (tr : list event) : list commit := omap commit_of tr.

(** The notices that the feed publishes itself, outside a batch: channel
    and payload. *)
Definition notice_of (e : event) : option (string * string) :=
  match e with
  | Sent (Cmd PUBLISH [Str ch; Str msg]) _ => Some (ch, msg)
  | _ => None
  end.

Definition notices (tr : list event) : list (string * string) :=
  omap notice_of tr.

(** The calls of the caller's callback, with their arguments. *)
Definition call_of (e : event) : option (list value) :=
  match e with Called a => Some a | _ => None end.

Definition calls (tr : list event) : list (list value) := omap call_of tr.

Definition is_acquired (e : event) : bool :=
  match e with Acquired => true | _ => false end.
Definition is_released (e : event) : bool :=
  match e with Released => true | _ => false end.
Definition is_executed (e : event) : bool :=
  match e with Executed _ _ _ _ => true | _ => false end.

Definition is_rejected (e : event) : bool :=
  match e with
  | Executed _ reply _ _ => negb (truthy reply)
  | _ => false
  end.

(** The NotFound exit of a retract is where it sends UNWATCH. *)
Definition is_not_found (e : event) : bool :=
  match e with Sent (Cmd UNWATCH _) _ => true | _ => false end.

Fixpoint count (p : event → bool) (tr : list event) : nat :=
  match tr with
  | [] => 0
  | e :: tr' => (if p e then 1 else 0) + count p tr'
  end.

(** Events without a commit, a notice or a call, in which the lock is
    released once for each EXEC and every EXEC is rejected. *)
Definition silent (tr : list event) : Prop :=
  commits tr = [] ∧ notices tr = [] ∧ calls tr = []
  ∧ count is_released tr = count is_executed tr
  ∧ count is_rejected tr = count is_executed tr
  ∧ count is_not_found tr = 0%nat.

End Observe.

Import Observe.

(** ** What a publish attempt queues *)

Module Batch.

(** The entries of the other members, in order. *)
Definition others (m : string) (zs : zset) : zset := zset_rem m zs.

(** The eviction rule of [publish_attempt]: the reply of ZRANGE key 0
    -max_length. *)
Definition overflow (zs : zset) (max_length : Z) : list string :=
  zset_range zs 0 (- max_length).

(** The commands that [forEach] queues for the ids [xs]. *)
Definition evict_cmds (f : feed) (xs : list string) : list command :=
  xs ≫= λ x, [Cmd ZREM [Str (ids_key f); Str x];
              Cmd HDEL [Str (items_key f); Str x];
              Cmd PUBLISH [Str (retract_chan f); Str x]].

(** The three writes of the item. *)
Definition item_cmds (f : feed) (item id : string) (now : Z) : list command :=
  [Cmd ZADD [Str (ids_key f); Num now; Str id];
   Cmd INCR [Str (publishes_key f)];
   Cmd HSET [Str (items_key f); Str id; Str item]].

(** The commands that attempts of one publish leave in the Multi object. *)
Inductive leftover (f : feed) (item id : string) : command → Prop :=
| leftover_zrem x : leftover f item id (Cmd ZREM [Str (ids_key f); Str x])
| leftover_hdel x : leftover f item id (Cmd HDEL [Str (items_key f); Str x])
| leftover_notice x :
    leftover f item id (Cmd PUBLISH [Str (retract_chan f); Str x])
| leftover_zadd now :
    leftover f item id (Cmd ZADD [Str (ids_key f); Num now; Str id])
| leftover_incr : leftover f item id (Cmd INCR [Str (publishes_key f)])
| leftover_hset :
    leftover f item id (Cmd HSET [Str (items_key f); Str id; Str item]).

(** The world in which the EXEC of an attempt started in [w] reaches the
    server: the key is watched, the index read, the queue extended, and
    three ticks have passed. *)
Definition at_read (f : feed) (n : Z) (w : world) : world :=
  (send (Cmd ZRANGE [Str (ids_key f); Num 0; Num (- n)])
        (send (Cmd WATCH [Str (ids_key f)]) w).1).1.

Definition at_exec (f : feed) (n : Z) (item id : string) (w : world) : world :=
  let w2 := at_read f n w in
  arrive
    (set_multi
       (multi w ++ evict_cmds f (overflow (zset_at (store w2) (ids_key f)) n)
                ++ item_cmds f item id (clock w2))
       w2).

(** The world after an EXEC that was rejected, the lock released. *)
Definition rejected (wx : world) : world :=
  log Released
    (log (Executed (multi wx) Null (store wx) (store wx))
         (set_server (store wx, idle) wx)).

(** The world after an EXEC that went through, the lock released. *)
Definition accepted (wx : world) : world :=
  let r := exec_batch (multi wx) (store wx) in
  log Released
    (log (Executed (multi wx) (Arr r.2) (store wx) r.1)
         (set_server (r.1, idle) wx)).

(** An attempt started in [w] is rejected and leaves [w']. *)
Definition rejects (f : feed) (n : Z) (item id : string) (w w' : world) : Prop :=
  dirty (link (at_exec f n item id w)) = true
  ∧ w' = rejected (at_exec f n item id w).

(** The events of rejected attempts: the key watched, the index read, the
    EXEC answered with null, the lock released. *)
Inductive aborted (f : feed) (n : Z) : list event → Prop :=
| aborted_nil : aborted f n []
| aborted_cons r q d tr :
    aborted f n tr →
    aborted f n (Sent (Cmd WATCH [Str (ids_key f)]) (Str "OK")
                 :: Sent (Cmd ZRANGE [Str (ids_key f); Num 0; Num (- n)]) r
                 :: Executed q Null d d
                 :: Released :: tr).

(** The world after the notice and the callback that follow an accepted
    EXEC. *)
Definition finish (f : feed) (item id : string) (callback : bool)
    (wx : world) : world :=
  (run_proc (announce f item id callback
               (exec_batch (multi wx) (store wx)).2)
            (accepted wx)).1.

(** The world in which the EXEC of an unbounded publish reaches the
    server. *)
Definition at_exec_unbounded (f : feed) (item id : string) (w : world) : world :=
  arrive (set_multi (item_cmds f item id (clock w)) (log Acquired w)).

(** The ids that a publish evicts from the keyspace [d]. *)
Definition evicted (f : feed) (d : db) : list string :=
  match bounded f with
  | Some n => overflow (zset_at d (ids_key f)) n
  | None => []
  end.

(** Whether a command writes the field [fld] of the hash [k]. *)
Definition writes_field (k fld : string) (c : command) : bool :=
  match c with
  | Cmd HSET (Str k' :: Str f' :: _) | Cmd HDEL (Str k' :: Str f' :: _) =>
      bool_decide (k' = k ∧ f' = fld)
  | _ => false
  end.

(** No other client writes the field [fld] of the hash [k]. *)
Definition leaves_field (k fld : string) (s : list tick) : Prop :=
  Forall (λ t, Forall (λ c, writes_field k fld c = false) (foreign t)) s.

End Batch.

Import Batch.

(** ** The order of a sorted set *)

Module Order.

(** Entries in increasing order of score. *)
Definition by_score (e e' : string * Z) : Prop := e.2 ≤ e'.2.

Definition score_sorted (zs : zset) : Prop := StronglySorted by_score zs.

(** Every sorted set of the keyspace is in order. *)
Definition db_sorted (d : db) : Prop := ∀ k, score_sorted (zset_at d k).

(** The keyspaces that an EXEC of the trace ran on and left are in order. *)
Definition trace_sorted (tr : list event) : Prop :=
  Forall (λ e, match e with
               | Executed _ _ d d' => db_sorted d ∧ db_sorted d'
               | _ => True
               end) tr.

(** The keyspace is in order, and so are those of the EXECs that came
    after the events [pre]. *)
Definition sorted_after (pre : list event) (w : world) : Prop :=
  db_sorted (store w) ∧ ∃ tr, trace w = pre ++ tr ∧ trace_sorted tr.

End Order.

Import Order.

Module Examples.

(** The feed of the specification's scenario. *)
Definition news : feed := {| name := "news"; max_length := Some 2 |}.

Definition empty_db : db := Db ∅ ∅ ∅ ∅ [].

(** The feed with its two oldest items: a1, then b1. *)
Definition two_items : db :=
  Db {[ "feed.ids:news" := [("a1", 100); ("b1", 101)] ]}
     {[ "feed.items:news" := {[ "a1" := "A"; "b1" := "B" ]} ]}
     {[ "feed.publishes:news" := 2 ]}
     ∅ [].

(** Nobody else writes. *)
Definition quiet : world := start two_items 200 [].

(** Another client removes b1 after the feed has read the index and before
    its EXEC arrives. *)
Definition racing : world :=
  start two_items 200
    [Tick 0 []; Tick 0 [];
     Tick 1 [Cmd ZREM [Str "feed.ids:news"; Str "b1"]]].

(** The world after a call, the world itself when the call does not
    return. *)
Definition next (f : feed) (c : call) (w : world) : world :=
  match perform f c w with Some (w', _) => w' | None => w end.

(** The commit of a call that commits once. *)
Definition the_commit (w w' : world) : commit :=
  default (Commit [] [] empty_db empty_db) (head (commits (events_since w w'))).

(** The replies to ZRANGE in a trace. *)
Definition range_replies (tr : list event) : list value :=
  omap (λ e, match e with Sent (Cmd ZRANGE _) r => Some r | _ => None end) tr.

Definition publish_c1 : call := Publish "c1" "C" None true.
Definition edit_a1 : call := Publish "u1" "A2" (Some "a1") true.
Definition edit_b1 : call := Publish "u1" "B2" (Some "b1") true.

End Examples.

Import Examples.

(** ** The queue of a publish, attempt by attempt *)

Module Attempts.

(** The queue of the Multi object of one publish after [k] attempts: each
    attempt adds the evictions it read and the three writes. *)
Inductive queued (f : feed) (item id : string) : nat → list command → Prop :=
| queued_nil : queued f item id 0 []
| queued_attempt k q ev now :
    queued f item id k q →
    queued f item id (S k) (q ++ evict_cmds f ev ++ item_cmds f item id now).

(** The index and the item map hold the same ids. *)
Definition in_step (f : feed) (d : db) : Prop :=
  ∀ x, x ∈ (zset_at d (ids_key f)).*1
       ↔ is_Some (hash_at d (items_key f) !! x).

(** The retract notices of the ids [xs], as the server delivers them. *)
Definition retract_notices (f : feed) (xs : list string)
    : list (string * string) :=
  (λ x, (retract_chan f, x)) <$> xs.

End Attempts.
Import Attempts.

(** ** Subscribing to a feed *)

Module Listen.

(** What runs later on the event loop: [this.emit(event)] of the Feed
    object, or a function that the caller passed, known by its name. *)
Inductive action : Type :=
| Emit (event : string)
| Call (callback : string).

(** The Feed object and what it has registered: [this.subscribed], the
    listeners added to the Thoonk object with [on], the listeners that
    wait for the next 'idle' of the listening connection, the timers with
    the time left, the channels that the listening connection was asked
    to subscribe to, and what has run so far, oldest first. *)
Record subscriber : Type := Subscriber {
  subscribed : bool;
  listeners : list (string * string);
  idle_listeners : list action;
  timers : list (Z * action);
  subscriptions : list string;
  ran : list action
}.

(** [this.thoonk.on(event, callback)] *)
Definition on (event callback : string) (s : subscriber) : subscriber :=
  Subscriber (subscribed s) (listeners s ++ [(event, callback)])
             (idle_listeners s) (timers s) (subscriptions s) (ran s).

(** [this.lredis.once('idle', a)] *)
Definition once_idle (a : action) (s : subscriber) : subscriber :=
  Subscriber (subscribed s) (listeners s) (idle_listeners s ++ [a]) (timers s)
             (subscriptions s) (ran s).

(** [setTimeout(a, delay)] *)
Definition set_timeout (a : action) (delay : Z) (s : subscriber) : subscriber :=
  Subscriber (subscribed s) (listeners s) (idle_listeners s)
             (timers s ++ [(delay, a)]) (subscriptions s) (ran s).

(** [this.lredis.subscribe(channel)] *)
Definition subscribe (channel : string) (s : subscriber) : subscriber :=
  Subscriber (subscribed s) (listeners s) (idle_listeners s) (timers s)
             (subscriptions s ++ [channel]) (ran s).

(** [this.subscribed = true] *)
Definition set_subscribed (s : subscriber) : subscriber :=
  Subscriber true (listeners s) (idle_listeners s) (timers s)
             (subscriptions s) (ran s).

(** An action runs. *)
Definition perform_action (a : action) (s : subscriber) : subscriber :=
  Subscriber (subscribed s) (listeners s) (idle_listeners s) (timers s)
             (subscriptions s) (ran s ++ [a]).

Definition position_chan (f : feed) : string :=
  concat "feed.position:" (name f).

(** The four SUBSCRIBE commands of [feedReady] and [feedSubscribe]. *)
Definition subscribe_feed (f : feed) (s : subscriber) : subscriber :=
  let s := subscribe (publish_chan f) s in
  let s := subscribe (edit_chan f) s in
  let s := subscribe (retract_chan f) s in
  subscribe (position_chan f) s.

(** [feedReady()] *)
Definition feedReady (f : feed) (s : subscriber) : subscriber :=
  let s := once_idle (Emit "ready") s in
  let s := set_timeout (Emit "ready") 100 s in
  let s := subscribe_feed f s in
  set_subscribed s.

(** The arguments of [feedSubscribe]. *)
Record callbacks : Type := Callbacks {
  publish_callback : string;
  edit_callback : string;
  retract_callback : string;
  placement_callback : string;
  done_callback : string
}.

(** [feedSubscribe(publish_callback, edit_callback, retract_callback,
    placement_callback, done_callback)] *)
Definition feedSubscribe (f : feed) (cb : callbacks) (s : subscriber)
    : subscriber :=
  let s := on (concat "publish:" (name f)) (publish_callback cb) s in
  let s := on (concat "edit:" (name f)) (edit_callback cb) s in
  let s := on (concat "retract:" (name f)) (retract_callback cb) s in
  let s := on (concat "position:" (name f)) (placement_callback cb) s in
  if negb (subscribed s) then
    let s := once_idle (Call (done_callback cb)) s in
    let s := subscribe_feed f s in
    set_subscribed s
  else perform_action (Call (done_callback cb)) s.

(** The listening connection emits 'idle': the listeners added with
    [once] run in the order in which they were added, and are removed. *)
Definition emit_idle (s : subscriber) : subscriber :=
  Subscriber (subscribed s) (listeners s) [] (timers s) (subscriptions s)
             (ran s ++ idle_listeners s).

(** [dt] milliseconds pass: the timers that are due run, and the others
    have that much less to wait. Every timer of the feed is set with the
    same delay, so the list is in the order in which they are due. *)
Definition elapse (dt : Z) (s : subscriber) : subscriber :=
  Subscriber (subscribed s) (listeners s) (idle_listeners s)
             ((λ t, (t.1 - dt, t.2)) <$> filter (λ t, dt < t.1) (timers s))
             (subscriptions s)
             (ran s ++ (filter (λ t, t.1 ≤ dt) (timers s)).*2).

(** Calls of [subscribe] one after the other. *)
Definition subscribe_all (f : feed) (cbs : list callbacks) (s : subscriber)
    : subscriber :=
  foldl (λ s cb, feedSubscribe f cb s) s cbs.

(** The channels of a feed, in the order in which they are subscribed. *)
Definition feed_channels (f : feed) : list string :=
  [publish_chan f; edit_chan f; retract_chan f; position_chan f].

(** The events of the Thoonk object that [subscribe] listens to. *)
Definition feed_events (f : feed) (cb : callbacks) : list (string * string) :=
  [(concat "publish:" (name f), publish_callback cb);
   (concat "edit:" (name f), edit_callback cb);
   (concat "retract:" (name f), retract_callback cb);
   (concat "position:" (name f), placement_callback cb)].

(** A Feed object that has registered nothing yet. *)
Definition unsubscribed : subscriber := Subscriber false [] [] [] [] [].

End Listen.

Import Listen.

(** ** The payload of a notice *)

Module Notice.

(** Whether a string is free of the character that separates the id from
    the item in a notice. *)
Fixpoint nul_free (s : string) : bool :=
  match s with
  | EmptyString => true
  | String a s' => negb (Ascii.eqb a (Ascii.ascii_of_nat 0)) && nul_free s'
  end.

(** The message of the notice that a callback sends first. *)
Definition payload_of (p : proc) : option string :=
  match p with
  | Post (Cmd PUBLISH [_; Str msg]) _ => Some msg
  | _ => None
  end.

End Notice.
Import Notice.

Module Cases.

(** The feed of the scenario without a bound, and with a negative one. *)
Definition unbounded_news : feed := {| name := "news"; max_length := None |}.
Definition shrinking_news : feed :=
  {| name := "news"; max_length := Some (-1) |}.

(** Another client adds x1 to the index after three round trips of the
    feed. *)
Definition interrupted : world :=
  start two_items 200
    [Tick 0 []; Tick 0 []; Tick 0 [];
     Tick 1 [Cmd ZADD [Str "feed.ids:news"; Num 150; Str "x1"]]].

(** The arguments of two calls of [subscribe]. *)
Definition first_caller : callbacks := Callbacks "p1" "e1" "r1" "m1" "d1".
Definition second_caller : callbacks := Callbacks "p2" "e2" "r2" "m2" "d2".

End Cases.
Import Cases.

(** ** Sorted sets *)

Lemma filter_all {A} (P : A → Prop) `{∀ x, Decision (P x)} (l : list A) :
  (∀ x, x ∈ l → P x) → filter P l = l.
Proof.
  induction l as [|a l IH]; intros HP; [done|].
  rewrite filter_cons_True by (apply HP; left).
  f_equal. apply IH. intros x Hx. apply HP. by right.
Qed.

Lemma filter_sublist_mono {A} (P : A → Prop) `{∀ x, Decision (P x)}
    (l1 l2 : list A) :
  l1 `sublist_of` l2 → filter P l1 `sublist_of` filter P l2.
Proof.
  induction 1 as [|a l1 l2 _ IH|a l1 l2 _ IH]; [done| |].
  - rewrite !(filter_cons _ a). destruct (decide (P a)); [|done].
    by constructor.
  - rewrite (filter_cons _ a). destruct (decide (P a)); [|done].
    by constructor.
Qed.

Lemma slice_last3 {A} (l : list A) (a b c : A) :
  slice (l ++ [a; b; c]) (-3) (-2) = [a].
Proof.
  unfold slice, rel_index. rewrite length_app. cbn [length].
  replace (-3 <? 0) with true by done. replace (-2 <? 0) with true by done.
  cbv iota zeta.
  replace (Z.to_nat _) with 1%nat by lia.
  replace (Z.to_nat _) with (length l) by lia.
  by rewrite drop_app_length.
Qed.

Lemma filter_comm {A} (P Q : A → Prop) `{∀ x, Decision (P x)}
    `{∀ x, Decision (Q x)} (l : list A) :
  filter P (filter Q l) = filter Q (filter P l).
Proof. rewrite !list_filter_filter. apply list_filter_iff. tauto. Qed.

Lemma filter_none {A} (P : A → Prop) `{∀ x, Decision (P x)} (l : list A) :
  (∀ x, x ∈ l → ¬ P x) → filter P l = [].
Proof.
  induction l as [|a l IH]; intros HP; [done|].
  rewrite filter_cons_False by (apply HP; left).
  apply IH. intros x Hx. apply HP. by right.
Qed.

(** Filtering out a prefix by its keys leaves no more than the rest. *)
Lemma filter_out_prefix {A B} (g : A → B) `{EqDecision B} (k : nat)
    (l : list A) :
  (length (filter (λ e, g e ∉ g <$> take k l) l) ≤ length l - k)%nat.
Proof.
  set (P := λ e, g e ∉ g <$> take k l).
  rewrite <- (length_drop l k).
  rewrite <- (take_drop k l) at 1. rewrite filter_app, length_app.
  rewrite (filter_none P (take k l)).
  - simpl. apply length_filter.
  - intros x Hx HP. apply HP. apply list_elem_of_fmap. eauto.
Qed.

Section zsets.

Implicit Types (zs : zset) (m x : string) (s : Z).

Lemma zset_insert_length m s zs :
  length (zset_insert m s zs) = S (length zs).
Proof.
  induction zs as [|e zs IH]; simpl; [done|].
  destruct (entry_lt m s e); simpl; congruence.
Qed.

Lemma zset_insert_members m s zs x :
  x ∈ (zset_insert m s zs).*1 ↔ x = m ∨ x ∈ zs.*1.
Proof.
  induction zs as [|e zs IH]; simpl.
  - rewrite list_elem_of_singleton. set_solver.
  - destruct (entry_lt m s e); simpl; set_solver.
Qed.

Lemma zset_rem_members m zs x :
  x ∈ (zset_rem m zs).*1 ↔ x ∈ zs.*1 ∧ x ≠ m.
Proof.
  unfold zset_rem. rewrite !list_elem_of_fmap. split.
  - intros (e & -> & He). apply list_elem_of_filter in He as [? ?]. eauto.
  - intros [(e & -> & He) ?]. exists e. split; [done|].
    apply list_elem_of_filter. done.
Qed.

Lemma zset_mem_spec m zs : zset_mem m zs = true ↔ m ∈ zs.*1.
Proof. unfold zset_mem. apply bool_decide_eq_true. Qed.

Lemma others_insert m s zs : others m (zset_insert m s zs) = others m zs.
Proof.
  unfold others, zset_rem. induction zs as [|e zs IH]; cbn [zset_insert].
  - by rewrite filter_cons_False by (simpl; tauto).
  - destruct (entry_lt m s e).
    + by rewrite filter_cons_False by (simpl; tauto).
    + rewrite !(filter_cons _ e), IH. done.
Qed.

Lemma others_add m s zs : others m (zset_add m s zs) = others m zs.
Proof.
  unfold zset_add. rewrite others_insert. unfold others, zset_rem.
  apply list_filter_filter_l. done.
Qed.

Lemma others_rem m x zs : others m (zset_rem x zs) = zset_rem x (others m zs).
Proof.
  unfold others, zset_rem. rewrite !list_filter_filter.
  apply list_filter_iff. tauto.
Qed.

Lemma zset_add_length m s zs :
  length (zset_add m s zs) = S (length (others m zs)).
Proof. apply zset_insert_length. Qed.

(** ZRANGE key 0 -n, for a positive n, is the first [len - n + 1] members
    when this is positive and nothing otherwise. *)
Lemma zset_range_lowest zs n :
  0 < n →
  zset_range zs 0 (- n)
  = take (Z.to_nat (Z.max 0 (Z.of_nat (length zs) - n + 1))) zs.*1.
Proof.
  intros Hn. unfold zset_range.
  remember (Z.of_nat (length zs)) as len eqn:Hlen. simpl.
  replace (- n <? 0) with true by lia.
  destruct (Z.ltb_spec (len + - n) 0) as [Hlt|Hge]; simpl.
  - replace (Z.max 0 (len - n + 1)) with 0 by lia. reflexivity.
  - destruct (Z.leb_spec len 0) as [Hz|Hpos]; simpl.
    + assert (length zs = 0%nat) as Hl by lia.
      destruct zs; [|done]. simpl. by rewrite take_nil.
    + replace (len <=? len + - n) with false by lia.
      f_equal. lia.
Qed.

End zsets.

(** ** The keyspace under a batch *)

Section keyspace.

Implicit Types (d : db) (k x : string) (c : command) (q : list command).

Lemma zset_at_set_zset k (zs : zset) d : zset_at (set_zset k zs d) k = zs.
Proof. unfold zset_at, set_zset. simpl. by rewrite lookup_insert_eq. Qed.

Lemma hash_at_set_hash k (h : gmap string string) d :
  hash_at (set_hash k h d) k = h.
Proof. unfold hash_at, set_hash. simpl. by rewrite lookup_insert_eq. Qed.

Lemma zset_at_set_hash k k' (h : gmap string string) d :
  zset_at (set_hash k' h d) k = zset_at d k.
Proof. done. Qed.

Lemma zset_at_set_counter k k' n d :
  zset_at (set_counter k' n d) k = zset_at d k.
Proof. done. Qed.

Lemma zset_at_deliver k ch msg d : zset_at (deliver ch msg d) k = zset_at d k.
Proof. done. Qed.

Lemma hash_at_set_zset k k' (zs : zset) d :
  hash_at (set_zset k' zs d) k = hash_at d k.
Proof. done. Qed.

Lemma hash_at_set_counter k k' n d :
  hash_at (set_counter k' n d) k = hash_at d k.
Proof. done. Qed.

Lemma hash_at_deliver k ch msg d : hash_at (deliver ch msg d) k = hash_at d k.
Proof. done. Qed.

Lemma exec_batch_app q1 q2 d :
  exec_batch (q1 ++ q2) d
  = ((exec_batch q2 (exec_batch q1 d).1).1,
     (exec_batch q1 d).2 ++ (exec_batch q2 (exec_batch q1 d).1).2).
Proof.
  revert d. induction q1 as [|c q1 IH]; intros d; simpl.
  - by destruct (exec_batch q2 d).
  - destruct (exec_cmd c d) as [d1 r]. rewrite IH.
    by destruct (exec_batch q1 d1).
Qed.

Lemma exec_batch_cons c q d :
  exec_batch (c :: q) d
  = ((exec_batch q (exec_cmd c d).1).1,
     (exec_cmd c d).2 :: (exec_batch q (exec_cmd c d).1).2).
Proof.
  cbn [exec_batch]. destruct (exec_cmd c d) as [d1 r]. cbn [fst snd].
  by destruct (exec_batch q d1).
Qed.

Lemma key_changed_same d k : key_changed d d k = false.
Proof. unfold key_changed. apply bool_decide_eq_false. tauto. Qed.

Lemma touch_same d (cn : conn) : touch d d cn = cn.
Proof.
  destruct cn as [ws b]. unfold touch. simpl. f_equal.
  induction ws as [|k ws IH]; simpl.
  - by rewrite orb_false_r.
  - rewrite key_changed_same. done.
Qed.

(** A connection that is still unmarked after a write of another client
    watches keys that this write left as they were. *)
Lemma touch_clean d d' (cn : conn) k :
  dirty (touch d d' cn) = false → k ∈ watched cn →
  dirty cn = false ∧ zset_at d' k = zset_at d k.
Proof.
  unfold touch. simpl. intros H Hk.
  apply orb_false_elim in H as [Hd Hw]. split; [done|].
  destruct (decide (zset_at d' k = zset_at d k)) as [|Hne]; [done|].
  assert (existsb (key_changed d d') (watched cn) = true) as Hex; [|congruence].
  apply existsb_exists. exists k. split; [by apply list_elem_of_In|].
  unfold key_changed. apply bool_decide_eq_true. left. congruence.
Qed.

Lemma foreign_cmd_watched c (s : db * conn) :
  watched (foreign_cmd c s).2 = watched s.2.
Proof. done. Qed.

End keyspace.

Create Rewrite HintDb keyspace.
#[local] Hint Rewrite zset_at_set_zset hash_at_set_hash zset_at_set_hash
  zset_at_set_counter zset_at_deliver hash_at_set_zset hash_at_set_counter
  hash_at_deliver : keyspace.

(** Run the commands of a literal batch and read the keyspace back. *)
#[local] Ltac run_batch :=
  cbn [exec_batch exec_cmd fst snd]; autorewrite with keyspace.

(** ** Steps of the interpreter *)

Section steps.
Implicit Types (w : world) (c : command) (p : proc).

Lemma run_post c p w : run_proc (Post c p) w = run_proc p (send c w).1.
Proof. done. Qed.

Lemma run_send c k w : run_proc (Send c k) w = run_proc (k (send c w).2) (send c w).1.
Proof. done. Qed.

Lemma run_exec k w : run_proc (Exec k) w = run_proc (k (exec w).2) (exec w).1.
Proof. done. Qed.

Lemma run_acquire p w : run_proc (Acquire p) w = run_proc p (log Acquired w).
Proof. done. Qed.

Lemma run_unlock p w : run_proc (Unlock p) w = run_proc p (log Released w).
Proof. done. Qed.

Lemma arrive_multi w : multi (arrive w) = multi w.
Proof. unfold arrive. destruct (sched w); reflexivity. Qed.

Lemma arrive_trace w : trace (arrive w) = trace w.
Proof. unfold arrive. destruct (sched w); reflexivity. Qed.

Lemma arrive_sched w : sched (arrive w) = tail (sched w).
Proof. unfold arrive. destruct (sched w) eqn:E; simpl; [by rewrite E|done]. Qed.

Lemma arrive_quiet w : sched w = [] → arrive w = w.
Proof. unfold arrive. by intros ->. Qed.

Lemma run_queue_deletes f xs p w :
  run_proc (queue_deletes f (Str <$> xs) p) w
  = run_proc p (set_multi (multi w ++ evict_cmds f xs) w).
Proof.
  revert w. induction xs as [|x xs IH]; intros w.
  - simpl. unfold set_multi. rewrite app_nil_r. by destruct w.
  - simpl. rewrite IH. unfold set_multi. simpl.
    by rewrite <- !app_assoc.
Qed.

Lemma zrange_reply k a b w :
  (send (Cmd ZRANGE [Str k; Num a; Num b]) w).2
  = Arr (Str <$> zset_range (zset_at (store (arrive w)) k) a b).
Proof. done. Qed.

Lemma zrange_world k a b w :
  (send (Cmd ZRANGE [Str k; Num a; Num b]) w).1
  = log (Sent (Cmd ZRANGE [Str k; Num a; Num b])
           (Arr (Str <$> zset_range (zset_at (store (arrive w)) k) a b)))
        (arrive w).
Proof.
  unfold send. cbn [serve exec_cmd fst snd]. rewrite touch_same.
  unfold set_server. simpl. by destruct (arrive w).
Qed.

Lemma watch_world k w :
  (send (Cmd WATCH [Str k]) w).1
  = log (Sent (Cmd WATCH [Str k]) (Str "OK"))
        (set_server (store (arrive w),
                     Conn (k :: watched (link (arrive w)))
                          (dirty (link (arrive w)))) (arrive w)).
Proof. done. Qed.

End steps.

(** ** The batch of a publish *)

Section batches.

Variables (f : feed) (item id : string).

Implicit Types (d : db) (x : string) (xs : list string) (c : command)
  (q : list command).

Lemma leftover_evict xs : Forall (leftover f item id) (evict_cmds f xs).
Proof.
  unfold evict_cmds. induction xs as [|x xs IH]; simpl; [done|].
  repeat constructor. done.
Qed.

Lemma leftover_item now : Forall (leftover f item id) (item_cmds f item id now).
Proof. repeat constructor. Qed.

(** A leftover command removes members other than [id] or leaves them. *)
Lemma leftover_others c d :
  leftover f item id c →
  others id (zset_at (exec_cmd c d).1 (ids_key f))
  `sublist_of` others id (zset_at d (ids_key f)).
Proof.
  destruct 1; simpl; try done.
  - rewrite zset_at_set_zset, others_rem. apply sublist_filter.
  - by rewrite zset_at_set_zset, others_add.
Qed.

Lemma leftovers_others q d :
  Forall (leftover f item id) q →
  others id (zset_at (exec_batch q d).1 (ids_key f))
  `sublist_of` others id (zset_at d (ids_key f)).
Proof.
  intros Hq. revert d. induction Hq as [|c q Hc Hq IH]; intros d; [done|].
  rewrite exec_batch_cons. cbn [fst]. etrans; [apply IH|].
  by apply leftover_others.
Qed.

(** The evictions remove exactly the ids [xs], from the index and from the
    items. *)
Lemma evict_zset xs d :
  zset_at (exec_batch (evict_cmds f xs) d).1 (ids_key f)
  = filter (λ e, e.1 ∉ xs) (zset_at d (ids_key f)).
Proof.
  revert d. induction xs as [|x xs IH]; intros d.
  - simpl. symmetry. apply filter_all. intros e _. apply not_elem_of_nil.
  - change (evict_cmds f (x :: xs))
      with ([Cmd ZREM [Str (ids_key f); Str x];
             Cmd HDEL [Str (items_key f); Str x];
             Cmd PUBLISH [Str (retract_chan f); Str x]] ++ evict_cmds f xs).
    rewrite exec_batch_app. cbn [fst]. rewrite IH. run_batch.
    unfold zset_rem. rewrite list_filter_filter.
    apply list_filter_iff. intros e. rewrite not_elem_of_cons. tauto.
Qed.

Lemma evict_hash xs d x :
  hash_at (exec_batch (evict_cmds f xs) d).1 (items_key f) !! x
  = if decide (x ∈ xs) then None else hash_at d (items_key f) !! x.
Proof.
  revert d. induction xs as [|y xs IH]; intros d.
  - destruct (decide (x ∈ [])) as [Hx|_]; [|done].
    by apply not_elem_of_nil in Hx.
  - change (evict_cmds f (y :: xs))
      with ([Cmd ZREM [Str (ids_key f); Str y];
             Cmd HDEL [Str (items_key f); Str y];
             Cmd PUBLISH [Str (retract_chan f); Str y]] ++ evict_cmds f xs).
    rewrite exec_batch_app. cbn [fst]. rewrite IH. run_batch.
    rewrite lookup_delete.
    repeat case_decide; set_solver.
Qed.

(** The keyspace and the replies after the three writes of the item. *)
Lemma item_cmds_zset now d :
  zset_at (exec_batch (item_cmds f item id now) d).1 (ids_key f)
  = zset_add id now (zset_at d (ids_key f)).
Proof. unfold item_cmds. by run_batch. Qed.

Lemma item_cmds_hash now d :
  hash_at (exec_batch (item_cmds f item id now) d).1 (items_key f)
  = <[id := item]> (hash_at d (items_key f)).
Proof. unfold item_cmds. by run_batch. Qed.

Lemma item_cmds_replies now d :
  ∃ r2 r3,
    (exec_batch (item_cmds f item id now) d).2
    = [of_bool (negb (zset_mem id (zset_at d (ids_key f)))); r2; r3].
Proof. unfold item_cmds. run_batch. eauto. Qed.

(** The batch of an attempt: what earlier attempts left in the queue, the
    evictions of the ids [ev], the three writes. *)
Lemma batch_index ev now stale d :
  zset_at (exec_batch (stale ++ evict_cmds f ev ++ item_cmds f item id now) d).1
          (ids_key f)
  = zset_add id now
      (filter (λ e, e.1 ∉ ev) (zset_at (exec_batch stale d).1 (ids_key f))).
Proof.
  rewrite !exec_batch_app. cbn [fst].
  by rewrite item_cmds_zset, evict_zset.
Qed.

Lemma batch_replies ev now stale d :
  ∃ rs r2 r3,
    (exec_batch (stale ++ evict_cmds f ev ++ item_cmds f item id now) d).2
    = rs ++ [of_bool (negb (zset_mem id
               (filter (λ e, e.1 ∉ ev)
                       (zset_at (exec_batch stale d).1 (ids_key f)))));
             r2; r3].
Proof.
  rewrite !exec_batch_app. cbn [fst snd].
  destruct (item_cmds_replies now
              (exec_batch (evict_cmds f ev) (exec_batch stale d).1).1)
    as (r2 & r3 & ->).
  rewrite evict_zset, app_assoc. eauto.
Qed.

Lemma batch_item ev now stale d :
  hash_at (exec_batch (stale ++ evict_cmds f ev ++ item_cmds f item id now) d).1
          (items_key f) !! id = Some item.
Proof.
  rewrite !exec_batch_app. cbn [fst].
  by rewrite item_cmds_hash, lookup_insert_eq.
Qed.

Lemma batch_evicted ev now stale d x :
  let d' :=
    (exec_batch (stale ++ evict_cmds f ev ++ item_cmds f item id now) d).1 in
  x ∈ ev → x ≠ id →
  (x ∉ (zset_at d' (ids_key f)).*1) ∧ (hash_at d' (items_key f) !! x = None).
Proof.
  intros d' Hx Hne. subst d'. split.
  - rewrite batch_index. unfold zset_add.
    rewrite zset_insert_members, zset_rem_members.
    intros [?|[Hin _]]; [done|].
    apply list_elem_of_fmap in Hin as (e & -> & He).
    apply list_elem_of_filter in He as [He _]. done.
  - rewrite !exec_batch_app. cbn [fst].
    rewrite item_cmds_hash, lookup_insert_ne by done.
    rewrite evict_hash. by rewrite decide_True.
Qed.

(** The members other than [id] that are left after the batch are members
    of the snapshot outside [ev]. *)
Lemma batch_others ev now stale d :
  Forall (leftover f item id) stale →
  others id
    (zset_at (exec_batch (stale ++ evict_cmds f ev ++ item_cmds f item id now) d).1
             (ids_key f))
  `sublist_of`
  others id (filter (λ e, e.1 ∉ ev) (zset_at d (ids_key f))).
Proof.
  intros Hstale. rewrite batch_index, others_add.
  unfold others, zset_rem. rewrite !(filter_comm (λ e : string * Z, e.1 ≠ id)).
  apply filter_sublist_mono, leftovers_others, Hstale.
Qed.

(** The notice after a batch that holds one attempt only: an edit when
    [id] is a member of the snapshot that the batch does not evict. *)
Lemma batch_chan ev now d :
  notice_chan f
    (exec_batch ([] ++ evict_cmds f ev ++ item_cmds f item id now) d).2
  = if decide (id ∈ (zset_at d (ids_key f)).*1 ∧ id ∉ ev) then edit_chan f
    else publish_chan f.
Proof.
  destruct (batch_replies ev now [] d) as (rs & r2 & r3 & ->).
  unfold notice_chan. rewrite slice_last3. cbn [first head default exec_batch fst].
  set (zs := zset_at d (ids_key f)).
  destruct (zset_mem id (filter (λ e, e.1 ∉ ev) zs)) eqn:Hm; cbn.
  - apply zset_mem_spec in Hm.
    apply list_elem_of_fmap in Hm as (e & -> & He).
    apply list_elem_of_filter in He as [Hev He].
    rewrite decide_True; [done|]. split; [|done].
    apply list_elem_of_fmap. eauto.
  - rewrite decide_False; [done|]. intros [Hin Hev].
    assert (zset_mem id (filter (λ e, e.1 ∉ ev) zs) = true); [|congruence].
    apply zset_mem_spec.
    apply list_elem_of_fmap in Hin as (e & -> & He).
    apply list_elem_of_fmap. exists e. split; [done|].
    apply list_elem_of_filter. done.
Qed.


(** When [id] is a member of the snapshot, outside the overflow of a full
    index, the batch leaves fewer than [n] members. *)
Lemma batch_edit_size n now stale d :
  0 < n → Forall (leftover f item id) stale →
  n ≤ Z.of_nat (length (zset_at d (ids_key f))) →
  id ∈ (zset_at d (ids_key f)).*1 →
  id ∉ overflow (zset_at d (ids_key f)) n →
  Z.of_nat (length (zset_at
    (exec_batch (stale ++ evict_cmds f (overflow (zset_at d (ids_key f)) n)
                       ++ item_cmds f item id now) d).1 (ids_key f))) < n.
Proof.
  intros Hn Hstale Hfull Hin Hout.
  pose proof (batch_others (overflow (zset_at d (ids_key f)) n) now stale d
                Hstale) as Hsub.
  apply sublist_length in Hsub.
  rewrite batch_index, zset_add_length in *.
  rewrite others_add in Hsub.
  set (zs := zset_at d (ids_key f)) in *.
  assert (length (filter (λ e, e.1 ∉ overflow zs n) zs)
          ≤ length zs - Z.to_nat (Z.max 0 (Z.of_nat (length zs) - n + 1)))%nat
    as Hkept.
  { unfold overflow. rewrite zset_range_lowest by done. rewrite <- fmap_take.
    apply (filter_out_prefix fst). }
  assert (length (others id (filter (λ e, e.1 ∉ overflow zs n) zs))
          < length (filter (λ e, e.1 ∉ overflow zs n) zs))%nat as Hless.
  { apply list_elem_of_fmap in Hin as (e & -> & He).
    apply (length_filter_lt _ _ e); [|simpl; tauto].
    apply list_elem_of_filter. done. }
  lia.
Qed.

End batches.

(** ** One attempt of a bounded publish *)

Section attempts.

Variables (f : feed) (n : Z) (item id : string) (callback : bool).

Implicit Types (w : world).

Lemma foreign_cmds_clean cs (s : db * conn) k :
  dirty (foreign_cmds cs s).2 = false → k ∈ watched s.2 →
  dirty s.2 = false ∧ zset_at (foreign_cmds cs s).1 k = zset_at s.1 k.
Proof.
  revert s. induction cs as [|c cs IH]; intros s Hd Hk; [done|].
  change (foreign_cmds (c :: cs) s) with (foreign_cmds cs (foreign_cmd c s)) in *.
  destruct (IH _ Hd) as [Hd' Hz]; [done|].
  destruct (touch_clean _ _ _ k Hd' Hk) as [Hd0 Hz0].
  split; [done|]. rewrite Hz. done.
Qed.

Lemma foreign_cmds_watched cs (s : db * conn) :
  watched (foreign_cmds cs s).2 = watched s.2.
Proof.
  revert s. induction cs as [|c cs IH]; intros s; [done|].
  change (foreign_cmds (c :: cs) s) with (foreign_cmds cs (foreign_cmd c s)).
  by rewrite IH.
Qed.

Lemma arrive_clean w k :
  dirty (link (arrive w)) = false → k ∈ watched (link w) →
  dirty (link w) = false ∧ zset_at (store (arrive w)) k = zset_at (store w) k.
Proof.
  unfold arrive. destruct (sched w) as [|t rest]; [done|]. simpl.
  apply (foreign_cmds_clean (foreign t) (store w, link w)).
Qed.

Lemma arrive_watched w : watched (link (arrive w)) = watched (link w).
Proof.
  unfold arrive. destruct (sched w) as [|t rest]; [done|]. simpl.
  apply (foreign_cmds_watched (foreign t) (store w, link w)).
Qed.

Lemma at_read_eq w :
  at_read f n w
  = log (Sent (Cmd ZRANGE [Str (ids_key f); Num 0; Num (- n)])
              (Arr (Str <$> overflow
                 (zset_at (store (arrive (send (Cmd WATCH [Str (ids_key f)]) w).1))
                          (ids_key f)) n)))
        (arrive (send (Cmd WATCH [Str (ids_key f)]) w).1).
Proof. unfold at_read. by rewrite zrange_world. Qed.

Lemma at_read_trace w :
  trace (at_read f n w)
  = trace w ++ [Sent (Cmd WATCH [Str (ids_key f)]) (Str "OK");
                Sent (Cmd ZRANGE [Str (ids_key f); Num 0; Num (- n)])
                     (Arr (Str <$> overflow (zset_at (store (at_read f n w))
                                                     (ids_key f)) n))].
Proof.
  rewrite at_read_eq. cbn [log trace store]. rewrite arrive_trace.
  rewrite watch_world. cbn [log set_server trace]. rewrite arrive_trace.
  by rewrite <- app_assoc.
Qed.

Lemma at_read_watched w : ids_key f ∈ watched (link (at_read f n w)).
Proof.
  rewrite at_read_eq. cbn [log link]. rewrite arrive_watched.
  rewrite watch_world. cbn. left.
Qed.

Lemma at_exec_multi w :
  multi (at_exec f n item id w)
  = multi w ++ evict_cmds f (overflow (zset_at (store (at_read f n w)) (ids_key f)) n)
            ++ item_cmds f item id (clock (at_read f n w)).
Proof. unfold at_exec. cbv zeta. by rewrite arrive_multi. Qed.

Lemma at_exec_trace w : trace (at_exec f n item id w) = trace (at_read f n w).
Proof. unfold at_exec. cbv zeta. by rewrite arrive_trace. Qed.

Lemma at_exec_sched w : sched (at_exec f n item id w) = drop 3 (sched w).
Proof.
  unfold at_exec. cbv zeta. rewrite arrive_sched. cbn [set_multi sched].
  rewrite at_read_eq. cbn [log sched]. rewrite arrive_sched.
  rewrite watch_world. cbn [log set_server sched]. rewrite arrive_sched.
  by destruct (sched w) as [|? [|? [|? ?]]].
Qed.

Lemma at_exec_clean w :
  dirty (link (at_exec f n item id w)) = false →
  zset_at (store (at_exec f n item id w)) (ids_key f)
  = zset_at (store (at_read f n w)) (ids_key f).
Proof.
  unfold at_exec. cbv zeta. intros Hd.
  eapply arrive_clean in Hd as [_ Hz]; [exact Hz|].
  cbn [set_multi link]. apply at_read_watched.
Qed.

Lemma at_exec_quiet w :
  sched w = [] → dirty (link (at_exec f n item id w)) = dirty (link w).
Proof.
  intros Hs. unfold at_exec. cbv zeta. rewrite at_read_eq.
  rewrite watch_world. rewrite (arrive_quiet w Hs).
  rewrite (arrive_quiet (log _ _)) by done.
  rewrite (arrive_quiet (set_multi _ _)) by done. done.
Qed.

Lemma at_read_multi w : multi (at_read f n w) = multi w.
Proof.
  rewrite at_read_eq. cbn [log multi]. rewrite arrive_multi.
  rewrite watch_world. cbn [log set_server multi]. apply arrive_multi.
Qed.

Lemma run_queue_item p w :
  run_proc (queue_item f item id p) w
  = run_proc p (set_multi (multi w ++ item_cmds f item id (clock w)) w).
Proof.
  unfold queue_item. cbn [run_proc]. f_equal.
  unfold set_multi, item_cmds. cbn. by rewrite <- !app_assoc.
Qed.

Lemma exec_eq w :
  exec w
  = let wx := arrive w in
    if dirty (link wx) then
      (log (Executed (multi wx) Null (store wx) (store wx))
           (set_server (store wx, idle) wx), Null)
    else
      let r := exec_batch (multi wx) (store wx) in
      (log (Executed (multi wx) (Arr r.2) (store wx) r.1)
           (set_server (r.1, idle) wx), Arr r.2).
Proof.
  unfold exec, serve_exec. cbv zeta. cbn [fst snd].
  destruct (dirty (link (arrive w))); [done|].
  by destruct (exec_batch (multi (arrive w)) (store (arrive w))).
Qed.

Lemma attempt_run w :
  run_proc (publish_attempt f n item id callback) w
  = let wx := at_exec f n item id w in
    if dirty (link wx) then (rejected wx, Jump L_publish_attempt)
    else run_proc (announce f item id callback
                     (exec_batch (multi wx) (store wx)).2)
                  (accepted wx).
Proof.
  unfold publish_attempt. rewrite run_post, run_send, zrange_reply.
  fold (at_read f n w). unfold publish_range_cb.
  rewrite run_queue_deletes, run_queue_item, run_exec, exec_eq.
  cbn [set_multi multi store link clock sched trace].
  rewrite at_read_multi, <- app_assoc.
  set (wx := arrive (set_multi _ _)).
  assert (wx = at_exec f n item id w) as ->.
  { subst wx. unfold at_exec. cbv zeta. f_equal. }
  cbv zeta. generalize (at_exec f n item id w). intros wx.
  destruct (dirty (link wx)); reflexivity.
Qed.

Lemma announce_run rs w :
  run_proc (announce f item id callback rs) w
  = ((if callback then log (Called [Str item; Str id]) else λ w, w)
       (send (Cmd PUBLISH
                [Str (notice_chan f rs); Str (concat id (concat nul item))])
             w).1,
     Finished).
Proof. unfold announce. rewrite run_post. by destruct callback. Qed.

End attempts.

(** ** The attempts of a bounded publish *)

Lemma send_trace c w : trace (send c w).1 = trace w ++ [Sent c (send c w).2].
Proof. unfold send. cbn [fst snd log set_server trace]. by rewrite arrive_trace. Qed.

Lemma send_sched c w : sched (send c w).1 = tail (sched w).
Proof. unfold send. cbn [fst snd log set_server sched]. apply arrive_sched. Qed.

Section loop.

Variables (f : feed) (n : Z) (uuid item : string) (id0 : option string)
  (callback : bool).
Hypothesis Hbounded : bounded f = Some n.

#[local] Abbreviation id := (assigned_id uuid id0).
#[local] Abbreviation c := (Publish uuid item id0 callback).

Implicit Types (w : world).

Lemma rejected_sched wx : sched (rejected wx) = sched wx.
Proof. done. Qed.

Lemma publish_attempts fuel w :
  (length (sched w) + Nat.b2n (dirty (link w)) < fuel)%nat →
  ∃ wa, rtc (rejects f n item id) w wa
        ∧ dirty (link (at_exec f n item id wa)) = false
        ∧ run fuel f c (publish_attempt f n item id callback) w
          = Some ((run_proc (announce f item id callback
                              (exec_batch (multi (at_exec f n item id wa))
                                          (store (at_exec f n item id wa))).2)
                            (accepted (at_exec f n item id wa))).1, true).
Proof.
  revert w. induction fuel as [|fuel IH]; intros w Hfuel; [lia|].
  cbn [run]. rewrite attempt_run. cbv zeta.
  destruct (dirty (link (at_exec f n item id w))) eqn:Hd.
  - assert (target f c L_publish_attempt = publish_attempt f n item id callback)
      as -> by (unfold target; by rewrite Hbounded).
    destruct (IH (rejected (at_exec f n item id w))) as (wa & Hrtc & Hda & Hrun).
    { cbn [rejected log set_server link sched dirty idle Nat.b2n].
      rewrite at_exec_sched, length_drop.
      destruct (sched w) eqn:Hs; [|simpl in *; lia].
      rewrite at_exec_quiet in Hd by done. rewrite Hd in Hfuel. simpl in *. lia. }
    exists wa. split; [|done].
    eapply rtc_l; [|exact Hrtc]. by split.
  - exists w. split; [done|]. split; [done|].
    rewrite announce_run. done.
Qed.

Lemma rejects_trace w w' :
  rejects f n item id w w' →
  ∃ r q d,
    trace w' = trace w ++ [Sent (Cmd WATCH [Str (ids_key f)]) (Str "OK");
                           Sent (Cmd ZRANGE [Str (ids_key f); Num 0; Num (- n)]) r;
                           Executed q Null d d; Released].
Proof.
  intros [_ ->]. do 3 eexists.
  cbn [rejected log set_server trace].
  rewrite at_exec_trace, at_read_trace. rewrite <- !app_assoc. done.
Qed.

Lemma rejects_multi w w' :
  rejects f n item id w w' →
  Forall (leftover f item id) (multi w) → Forall (leftover f item id) (multi w').
Proof.
  intros [_ ->] Hw. cbn [rejected log set_server multi].
  rewrite at_exec_multi. rewrite !Forall_app. split; [done|].
  split; [apply leftover_evict|apply leftover_item].
Qed.

Lemma rejects_sched w w' :
  rejects f n item id w w' → sched w' = drop 3 (sched w).
Proof. intros [_ ->]. cbn [rejected log set_server sched]. apply at_exec_sched. Qed.

Lemma attempts_events w wa :
  rtc (rejects f n item id) w wa →
  ∃ pre k, trace wa = trace w ++ pre ∧ aborted f n pre
         ∧ sched wa = drop k (sched w)
         ∧ (Forall (leftover f item id) (multi w) →
            Forall (leftover f item id) (multi wa))
         ∧ (pre = [] → multi wa = multi w).
Proof.
  induction 1 as [w|w w1 wa Hstep _ IH].
  - exists [], 0%nat. rewrite app_nil_r. repeat split; try done. constructor.
  - destruct IH as (pre & k & Htr & Hab & Hs & Hm & _).
    destruct (rejects_trace _ _ Hstep) as (r & q & d & Htr1).
    eexists _, (3 + k)%nat. split; [|split; [|split; [|split]]].
    + rewrite Htr, Htr1, <- app_assoc. reflexivity.
    + simpl. by constructor.
    + rewrite Hs, (rejects_sched _ _ Hstep), drop_drop. done.
    + intros Hw. apply Hm. by eapply rejects_multi.
    + done.
Qed.

Lemma finish_trace wx :
  ∃ r,
    trace (finish f item id callback wx)
    = trace wx
      ++ [Executed (multi wx) (Arr (exec_batch (multi wx) (store wx)).2)
                   (store wx) (exec_batch (multi wx) (store wx)).1;
          Released;
          Sent (Cmd PUBLISH
                  [Str (notice_chan f (exec_batch (multi wx) (store wx)).2);
                   Str (concat id (concat nul item))]) r]
      ++ (if callback then [Called [Str item; Str id]] else []).
Proof.
  unfold finish. rewrite announce_run. cbn [fst]. eexists.
  destruct callback; cbn [log trace]; rewrite send_trace;
    cbn [accepted log set_server trace]; rewrite <- ?app_assoc; reflexivity.
Qed.

Lemma bounded_publish w :
  ∃ pre wx stale now k,
    perform f c w = Some (finish f item id callback wx, true)
    ∧ trace wx
      = trace w ++ Acquired :: pre
        ++ [Sent (Cmd WATCH [Str (ids_key f)]) (Str "OK");
            Sent (Cmd ZRANGE [Str (ids_key f); Num 0; Num (- n)])
                 (Arr (Str <$> overflow (zset_at (store wx) (ids_key f)) n))]
    ∧ aborted f n pre
    ∧ multi wx
      = stale ++ evict_cmds f (overflow (zset_at (store wx) (ids_key f)) n)
              ++ item_cmds f item id now
    ∧ Forall (leftover f item id) stale
    ∧ (pre = [] → stale = [])
    ∧ sched wx = drop k (sched w).
Proof.
  unfold perform, entry, publish, feedPublish. rewrite Hbounded.
  change (3 + length (sched w))%nat with (S (2 + length (sched w))).
  cbn [run run_proc].
  assert (target f c L_publish_attempt = publish_attempt f n item id callback)
    as -> by (unfold target; by rewrite Hbounded).
  destruct (publish_attempts (2 + length (sched w)) (set_multi [] (log Acquired w)))
    as (wa & Hrtc & Hclean & ->).
  { cbn [set_multi log sched link]. destruct (dirty (link w)); simpl; lia. }
  destruct (attempts_events _ _ Hrtc) as (pre & k & Htr & Hab & Hs & Hm & Hnil).
  cbn [set_multi log trace sched multi] in *.
  exists pre, (at_exec f n item id wa), (multi wa), (clock (at_read f n wa)),
    (3 + k)%nat.
  split; [done|].
  rewrite (at_exec_clean _ _ _ _ _ Hclean).
  split; [|split; [done|split; [|split; [|split]]]].
  - rewrite at_exec_trace, at_read_trace, Htr, <- !app_assoc. done.
  - apply at_exec_multi.
  - by apply Hm.
  - done.
  - rewrite at_exec_sched, Hs, drop_drop. f_equal. lia.
Qed.

End loop.

(** ** Traces *)

Section traces.

Implicit Types (tr : list event) (w : world).

Lemma events_since_app w w' tr :
  trace w' = trace w ++ tr → events_since w w' = tr.
Proof. intros H. unfold events_since. by rewrite H, drop_app_length. Qed.

Lemma count_app p tr1 tr2 : count p (tr1 ++ tr2) = (count p tr1 + count p tr2)%nat.
Proof. induction tr1 as [|e tr1 IH]; simpl; [done|]. rewrite IH. lia. Qed.

Lemma commits_app tr1 tr2 : commits (tr1 ++ tr2) = commits tr1 ++ commits tr2.
Proof. apply omap_app. Qed.

Lemma notices_app tr1 tr2 : notices (tr1 ++ tr2) = notices tr1 ++ notices tr2.
Proof. apply omap_app. Qed.

Lemma calls_app tr1 tr2 : calls (tr1 ++ tr2) = calls tr1 ++ calls tr2.
Proof. apply omap_app. Qed.

(** Rejected attempts commit nothing, announce nothing, call nobody, and
    release the lock once for each EXEC. *)
Lemma aborted_quiet f n tr :
  aborted f n tr →
  commits tr = [] ∧ notices tr = [] ∧ calls tr = []
  ∧ count is_acquired tr = 0%nat
  ∧ count is_released tr = count is_executed tr
  ∧ count is_rejected tr = count is_executed tr
  ∧ count is_not_found tr = 0%nat.
Proof.
  induction 1 as [|r q d tr _ (Hc & Hn & Hk & Ha & Hr & Hj & Hu)]; [done|].
  cbn. rewrite Ha, Hr, Hj, Hu. repeat split; try done.
Qed.

End traces.

Section bounded.

Variables (f : feed) (n : Z).
Hypothesis Hbounded : bounded f = Some n.

(** A bounded publish returns, after exactly one EXEC that goes through;
    the queue of that EXEC ends with the evictions for the keyspace it
    runs on and the three writes. *)
Lemma bounded_publish_commit uuid item id0 callback w :
  ∃ w' tr cm stale now,
    perform f (Publish uuid item id0 callback) w = Some (w', true)
    ∧ trace w' = trace w ++ tr
    ∧ commits tr = [cm]
    ∧ batch cm
      = stale ++ evict_cmds f (overflow (zset_at (before cm) (ids_key f)) n)
              ++ item_cmds f item (assigned_id uuid id0) now
    ∧ Forall (leftover f item (assigned_id uuid id0)) stale
    ∧ (count is_executed tr = 1%nat → stale = [])
    ∧ after cm = (exec_batch (batch cm) (before cm)).1
    ∧ replies cm = (exec_batch (batch cm) (before cm)).2.
Proof.
  destruct (bounded_publish f n uuid item id0 callback Hbounded w)
    as (pre & wx & stale & now & k & Hrun & Htr & Hab & Hq & Hst & Hnil & _).
  destruct (finish_trace f uuid item id0 callback wx) as (r & Hfin).
  destruct (aborted_quiet f n pre Hab) as (Hc & _).
  eexists _, _, (Commit (multi wx) _ (store wx) _), stale, now.
  split; [exact Hrun|]. split.
  { rewrite Hfin, Htr, <- !app_assoc. cbn [app]. reflexivity. }
  split.
  { change (commits (Acquired :: ?x)) with (commits x).
    rewrite !commits_app, Hc. by destruct callback. }
  cbn [batch before after replies].
  split; [done|]. split; [done|]. split; [|done].
  intros Hone. apply Hnil. destruct Hab as [|? ? ? ? _]; [done|].
  exfalso. cbn in Hone. rewrite !count_app in Hone. cbn in Hone. lia.
Qed.

End bounded.

Lemma bounded_positive f n : max_length f = Some n → 0 < n → bounded f = Some n.
Proof.
  intros Hm Hn. unfold bounded. rewrite Hm. simpl.
  destruct (Z.eqb_spec n 0); [lia|done].
Qed.



(** ** An unbounded publish *)

Section unbounded.

Variables (f : feed) (uuid item : string) (id0 : option string)
  (callback : bool).
Hypothesis Hunbounded : bounded f = None.

#[local] Abbreviation id := (assigned_id uuid id0).
#[local] Abbreviation c := (Publish uuid item id0 callback).

Lemma unbounded_publish w :
  perform f c w
  = let wx := at_exec_unbounded f item id w in
    if dirty (link wx) then Some (log Thrown (rejected wx), false)
    else Some (finish f item id callback wx, true).
Proof.
  unfold perform, entry, publish, feedPublish. rewrite Hunbounded.
  change (3 + length (sched w))%nat with (S (2 + length (sched w))).
  cbn [run run_proc]. rewrite run_queue_item.
  cbn [run_proc set_multi log multi clock store link sched trace app].
  rewrite exec_eq. cbv zeta.
  set (wx := arrive _).
  assert (wx = at_exec_unbounded f item id w) as -> by done.
  generalize (at_exec_unbounded f item id w). intros wx.
  unfold finish. rewrite announce_run.
  destruct (dirty (link wx)); [reflexivity|].
  cbn [fst snd]. unfold publish_exec_cb_unbounded. cbn [run_proc].
  fold (accepted wx). rewrite announce_run. reflexivity.
Qed.

Lemma at_exec_unbounded_facts w :
  let wx := at_exec_unbounded f item id w in
  trace wx = trace w ++ [Acquired]
  ∧ multi wx = item_cmds f item id (clock w)
  ∧ sched wx = tail (sched w)
  ∧ (link w = idle → dirty (link wx) = false).
Proof.
  unfold at_exec_unbounded. cbv zeta.
  rewrite arrive_trace, arrive_multi, arrive_sched. repeat split; try done.
  intros Hidle. unfold arrive. cbn [set_multi log sched store link].
  destruct (sched w) as [|t rest]; cbn; rewrite Hidle; [done|].
  generalize (store w). induction (foreign t) as [|c0 cs IH]; intros d; [done|].
  apply IH.
Qed.

End unbounded.

(** ** A publish that returns *)

Section publish.

Variables (f : feed) (uuid item : string) (id0 : option string)
  (callback : bool).

#[local] Abbreviation id := (assigned_id uuid id0).
#[local] Abbreviation c := (Publish uuid item id0 callback).

(** A publish that returns has gone through one EXEC that was accepted,
    after events that commit and announce nothing; the queue of that EXEC
    ends with the evictions for the keyspace it runs on and the three
    writes. *)
Lemma publish_returns w w' :
  perform f c w = Some (w', true) →
  ∃ wx pre stale now k,
    w' = finish f item id callback wx
    ∧ trace wx = trace w ++ Acquired :: pre
    ∧ silent pre
    ∧ multi wx
      = stale ++ evict_cmds f (evicted f (store wx)) ++ item_cmds f item id now
    ∧ Forall (leftover f item id) stale
    ∧ (count is_executed pre = 0%nat → stale = [])
    ∧ sched wx = drop k (sched w).
Proof.
  intros Hrun. unfold evicted. destruct (bounded f) as [n|] eqn:Hb.
  - destruct (bounded_publish f n uuid item id0 callback Hb w)
      as (pre & wx & stale & now & k & Hrun' & Htr & Hab & Hq & Hst & Hnil & Hs).
    rewrite Hrun' in Hrun. injection Hrun as <-.
    destruct (aborted_quiet f n pre Hab) as (Hc & Hn & Hk & _ & Hr & Hj & Hu).
    exists wx, (pre ++ [Sent (Cmd WATCH [Str (ids_key f)]) (Str "OK");
                       Sent (Cmd ZRANGE [Str (ids_key f); Num 0; Num (- n)])
                            (Arr (Str <$> overflow (zset_at (store wx) (ids_key f)) n))]),
      stale, now, k.
    split; [done|]. split; [done|]. split.
    { unfold silent. rewrite commits_app, notices_app, calls_app, !count_app.
      rewrite Hc, Hn, Hk, Hr, Hj, Hu. done. }
    split; [done|]. split; [done|]. split; [|done].
    intros Hz. apply Hnil. rewrite count_app in Hz.
    destruct Hab; [done|]. cbn in Hz. lia.
  - rewrite unbounded_publish in Hrun by done. cbv zeta in Hrun.
    destruct (at_exec_unbounded_facts f uuid item id0 w) as (Htr & Hq & Hs & _).
    destruct (dirty (link (at_exec_unbounded f item id w))); [done|].
    injection Hrun as <-.
    exists (at_exec_unbounded f item id w), [], [], (clock w), 1%nat.
    split; [done|]. split; [done|]. split; [done|].
    split; [done|]. split; [done|]. split; [done|].
    rewrite Hs. by destruct (sched w).
Qed.

End publish.

Section round_trip.

Implicit Types (d : db) (w : world) (c : command).

Lemma hash_at_set_hash_ne k k' (h : gmap string string) d :
  k ≠ k' → hash_at (set_hash k' h d) k = hash_at d k.
Proof.
  intros Hne. unfold hash_at, set_hash. simpl. by rewrite lookup_insert_ne.
Qed.

Lemma writes_field_spec k fld c d :
  writes_field k fld c = false →
  hash_at (exec_cmd c d).1 k !! fld = hash_at d k !! fld.
Proof.
  destruct c as [nm args]. unfold writes_field, exec_cmd.
  intros Hw. repeat case_match; simplify_eq; cbn [fst]; try done.
  - apply bool_decide_eq_false in Hw.
    destruct (decide (k = s)) as [->|Hk].
    + rewrite hash_at_set_hash, lookup_insert_ne; [done|]. naive_solver.
    + by rewrite hash_at_set_hash_ne.
  - apply bool_decide_eq_false in Hw.
    destruct (decide (k = s)) as [->|Hk].
    + rewrite hash_at_set_hash, lookup_delete_ne; [done|]. naive_solver.
    + by rewrite hash_at_set_hash_ne.
Qed.

Lemma foreign_cmds_field k fld cs (s : db * conn) :
  Forall (λ c, writes_field k fld c = false) cs →
  hash_at (foreign_cmds cs s).1 k !! fld = hash_at s.1 k !! fld.
Proof.
  intros Hcs. revert s. induction Hcs as [|c cs Hc _ IH]; intros s; [done|].
  change (foreign_cmds (c :: cs) s) with (foreign_cmds cs (foreign_cmd c s)).
  rewrite IH. by apply writes_field_spec.
Qed.

Lemma arrive_field k fld w :
  leaves_field k fld (sched w) →
  hash_at (store (arrive w)) k !! fld = hash_at (store w) k !! fld.
Proof.
  unfold arrive, leaves_field. destruct (sched w) as [|t rest]; [done|].
  intros Hq. apply Forall_cons in Hq as [Ht _]. cbn [store].
  by apply (foreign_cmds_field k fld (foreign t) (store w, link w)).
Qed.

Lemma leaves_field_drop k fld j s :
  leaves_field k fld s → leaves_field k fld (drop j s).
Proof. apply Forall_drop. Qed.

Lemma leaves_field_tail k fld s :
  leaves_field k fld s → leaves_field k fld (tail s).
Proof. intros H. destruct s; [done|]. by apply Forall_cons in H as [_ ?]. Qed.

Variables (f : feed) (item id : string) (callback : bool).

(** After the notice the item is still what the batch wrote, when no
    other client writes it. *)
Lemma finish_item wx stale ev now :
  multi wx = stale ++ evict_cmds f ev ++ item_cmds f item id now →
  leaves_field (items_key f) id (sched wx) →
  hash_at (store (finish f item id callback wx)) (items_key f) !! id = Some item
  ∧ sched (finish f item id callback wx) = tail (sched wx).
Proof.
  intros Hq Hs. unfold finish. rewrite announce_run. cbn [fst]. split.
  - assert (∀ w0, store ((if callback then log (Called [Str item; Str id])
                          else λ w, w) w0) = store w0) as -> by by destruct callback.
    unfold send. cbn [fst snd serve exec_cmd log set_server store].
    rewrite hash_at_deliver, arrive_field by done.
    cbn [accepted log set_server store]. rewrite Hq. apply batch_item.
  - assert (∀ w0, sched ((if callback then log (Called [Str item; Str id])
                          else λ w, w) w0) = sched w0) as -> by by destruct callback.
    by rewrite send_sched.
Qed.

Lemma get_item_run w v :
  hash_at (store (arrive w)) (items_key f) !! id = Some v →
  ∃ w', perform f (GetItem id) w = Some (w', true)
        ∧ trace w' = trace w ++ [Sent (Cmd HGET [Str (items_key f); Str id])
                                      (Str v);
                                 Called [Null; Str v]].
Proof.
  intros Hv.
  exists (log (Called [Null; (send (Cmd HGET [Str (items_key f); Str id]) w).2])
              (send (Cmd HGET [Str (items_key f); Str id]) w).1).
  split; [reflexivity|].
  cbn [log trace]. rewrite send_trace, <- app_assoc.
  unfold send. cbn [fst snd serve exec_cmd]. by rewrite Hv.
Qed.

End round_trip.

Lemma idle_stays_clean w :
  link w = idle → dirty (link (arrive w)) = false ∧ watched (link (arrive w)) = [].
Proof.
  intros Hidle. rewrite arrive_watched, Hidle. split; [|done].
  unfold arrive. destruct (sched w) as [|t rest]; [by rewrite Hidle|].
  cbn [link]. rewrite Hidle. generalize (store w).
  induction (foreign t) as [|c0 cs IH]; intros d; [done|]. apply IH.
Qed.

(** A publish returns on a bounded feed, and on any feed when the
    connection is not in a transaction. *)
Lemma publish_total f uuid item id0 callback w :
  is_Some (bounded f) ∨ link w = idle →
  ∃ w', perform f (Publish uuid item id0 callback) w = Some (w', true).
Proof.
  intros Hidle. destruct (bounded f) as [n|] eqn:Hb.
  - destruct (bounded_publish f n uuid item id0 callback Hb w)
      as (pre & wx & stale & now & k & Hrun & _). eauto.
  - destruct Hidle as [[? ?]|Hidle]; [done|].
    rewrite unbounded_publish by done. cbv zeta.
    destruct (at_exec_unbounded_facts f uuid item id0 w) as (_ & _ & _ & Hd).
    rewrite Hd by done. eauto.
Qed.

(** C9. A publish without an id, then [getItem] of the id that the
    callback received, hands back the published item itself: the hash
    holds the string that was published and HGET returns it. The feed is
    bounded or its connection is not in a transaction, and no other client
    writes the item in the meantime. *)
Theorem publish_then_get_item f uuid item callback w :
  is_Some (bounded f) ∨ link w = idle →
  leaves_field (items_key f) uuid (sched w) →
  ∃ w1 w2,
    perform f (Publish uuid item None callback) w = Some (w1, true)
    ∧ calls (events_since w w1)
      = (if callback then [[Str item; Str uuid]] else [])
    ∧ perform f (GetItem uuid) w1 = Some (w2, true)
    ∧ events_since w1 w2
      = [Sent (Cmd HGET [Str (items_key f); Str uuid]) (Str item);
         Called [Null; Str item]].
Proof.
  intros Hidle Hquiet.
  destruct (publish_total f uuid item None callback w Hidle) as (w1 & Hrun).
  destruct (publish_returns f uuid item None callback w w1 Hrun)
    as (wx & pre & stale & now & k & -> & Htr & Hsil & Hq & _ & _ & Hs).
  cbn [assigned_id default] in *.
  destruct (finish_trace f uuid item None callback wx) as (r & Hfin).
  cbn [assigned_id default] in Hfin.
  destruct (finish_item f item uuid callback wx _ _ _ Hq) as [Hitem Hsched].
  { rewrite Hs. by apply leaves_field_drop. }
  destruct (get_item_run f uuid (finish f item uuid callback wx) item)
    as (w2 & Hget & Htr2).
  { rewrite arrive_field, Hitem; [done|].
    rewrite Hsched, Hs. by apply leaves_field_tail, leaves_field_drop. }
  exists (finish f item uuid callback wx), w2.
  split; [exact Hrun|]. split; [|split].
  - erewrite events_since_app; last first.
    { rewrite Hfin, Htr, <- app_assoc. reflexivity. }
    destruct Hsil as (_ & _ & Hk & _).
    rewrite !calls_app. change (calls (Acquired :: pre)) with (calls pre).
    rewrite Hk. by destruct callback.
  - exact Hget.
  - by apply events_since_app.
Qed.

(** ** Sorted sets stay in order *)

Section order.

Implicit Types (zs : zset) (m : string) (s : Z) (d : db).

Lemma zset_rem_sorted m zs : score_sorted zs → score_sorted (zset_rem m zs).
Proof.
  unfold score_sorted, zset_rem. induction 1 as [|e zs _ IH Hall]; [constructor|].
  rewrite filter_cons. destruct (decide (e.1 ≠ m)); [|done].
  constructor; [done|].
  apply Forall_forall. intros e' He'. apply list_elem_of_filter in He' as [_ He'].
  by eapply Forall_forall in Hall.
Qed.

Lemma entry_lt_le m s (e : string * Z) :
  if entry_lt m s e then s ≤ e.2 else e.2 ≤ s.
Proof.
  unfold entry_lt. destruct (Z.ltb_spec s e.2); cbn [orb]; [lia|].
  destruct (Z.eqb_spec s e.2); cbn [andb]; [|lia].
  destruct (String.ltb m e.1); lia.
Qed.

Lemma zset_insert_Forall (P : string * Z → Prop) m s zs :
  P (m, s) → Forall P zs → Forall P (zset_insert m s zs).
Proof.
  intros Hms. induction 1 as [|e zs He Hzs IH]; cbn [zset_insert].
  - by constructor.
  - destruct (entry_lt m s e); repeat constructor; done.
Qed.

Lemma zset_insert_sorted m s zs :
  score_sorted zs → score_sorted (zset_insert m s zs).
Proof.
  unfold score_sorted. induction 1 as [|e zs Hzs IH Hall]; cbn [zset_insert].
  - repeat constructor.
  - pose proof (entry_lt_le m s e) as Hle. destruct (entry_lt m s e).
    + constructor; [by constructor|]. constructor; [done|].
      eapply Forall_impl; [exact Hall|]. unfold by_score. simpl. intros; lia.
    + constructor; [done|]. by apply zset_insert_Forall.
Qed.

Lemma zset_add_sorted m s zs : score_sorted zs → score_sorted (zset_add m s zs).
Proof. intros. by apply zset_insert_sorted, zset_rem_sorted. Qed.

(** The first entries of a sorted set are its lowest: no entry among them
    has a higher score than an entry after them. *)
Lemma lowest_first zs k e e' :
  score_sorted zs → e ∈ take k zs → e' ∈ drop k zs → e.2 ≤ e'.2.
Proof.
  intros Hs. rewrite <- (take_drop k zs) in Hs.
  apply (StronglySorted_app_1_elem_of _ _ _ _ _ Hs).
Qed.

Lemma zset_at_set_zset_ne k k' (zs : zset) d :
  k ≠ k' → zset_at (set_zset k' zs d) k = zset_at d k.
Proof.
  intros Hne. unfold zset_at, set_zset. simpl. by rewrite lookup_insert_ne.
Qed.

Lemma set_zset_sorted k zs d :
  score_sorted zs → db_sorted d → db_sorted (set_zset k zs d).
Proof.
  intros Hzs Hd k'. destruct (decide (k' = k)) as [->|Hne].
  - by rewrite zset_at_set_zset.
  - by rewrite zset_at_set_zset_ne.
Qed.

(** No command of the server breaks the order of a sorted set. *)
Lemma exec_cmd_sorted c d : db_sorted d → db_sorted (exec_cmd c d).1.
Proof.
  intros Hd. destruct c as [nm args]. unfold exec_cmd.
  repeat case_match; simplify_eq; cbn [fst]; try done.
  - by apply set_zset_sorted; [apply zset_add_sorted|].
  - by apply set_zset_sorted; [apply zset_rem_sorted|].
Qed.

Lemma exec_batch_sorted q d : db_sorted d → db_sorted (exec_batch q d).1.
Proof.
  revert d. induction q as [|c q IH]; intros d Hd; [done|].
  rewrite exec_batch_cons. cbn [fst]. by apply IH, exec_cmd_sorted.
Qed.

Lemma foreign_cmds_sorted cs (s : db * conn) :
  db_sorted s.1 → db_sorted (foreign_cmds cs s).1.
Proof.
  revert s. induction cs as [|c cs IH]; intros s Hs; [done|].
  change (foreign_cmds (c :: cs) s) with (foreign_cmds cs (foreign_cmd c s)).
  apply IH. cbn [foreign_cmd fst]. by apply exec_cmd_sorted.
Qed.

Lemma arrive_sorted w : db_sorted (store w) → db_sorted (store (arrive w)).
Proof.
  unfold arrive. destruct (sched w) as [|t rest]; [done|]. cbn [store].
  apply (foreign_cmds_sorted (foreign t) (store w, link w)).
Qed.

Lemma log_sorted pre e w :
  match e with
  | Executed _ _ d d' => db_sorted d ∧ db_sorted d'
  | _ => True
  end →
  sorted_after pre w → sorted_after pre (log e w).
Proof.
  intros He (Hd & tr & Htr & Hs). split; [done|]. exists (tr ++ [e]).
  cbn [log trace]. rewrite Htr, app_assoc. split; [done|].
  apply Forall_app. split; [done|]. by repeat constructor.
Qed.

Lemma send_sorted pre c w : sorted_after pre w → sorted_after pre (send c w).1.
Proof.
  intros (Hd & tr & Htr & Hs). unfold send. cbn [fst snd].
  apply log_sorted; [done|]. split.
  - cbn [set_server store]. apply arrive_sorted in Hd.
    destruct c as [nm args]. unfold serve.
    repeat case_match; simplify_eq; cbn [fst]; try done;
      match goal with H : exec_cmd ?c ?d = _ |- _ =>
        pose proof (exec_cmd_sorted c d Hd) as Hx; rewrite H in Hx; exact Hx end.
  - exists tr. cbn [set_server trace]. by rewrite arrive_trace.
Qed.

Lemma exec_sorted pre w : sorted_after pre w → sorted_after pre (exec w).1.
Proof.
  intros (Hd & tr & Htr & Hs). rewrite exec_eq. cbv zeta.
  apply arrive_sorted in Hd.
  pose proof (exec_batch_sorted (multi (arrive w)) _ Hd).
  destruct (dirty (link (arrive w))); cbn [fst]; (apply log_sorted; [done|]);
    (split; [done|]); exists tr; cbn [set_server trace]; by rewrite arrive_trace.
Qed.

(** One pass keeps the order. *)
Lemma run_proc_sorted pre p w :
  sorted_after pre w → sorted_after pre (run_proc p w).1.
Proof.
  revert w. induction p as [c k IH|c p IH|p IH|c p IH|k IH|k IH|p IH|p IH|a p IH|l| |];
    intros w Hw.
  - rewrite run_send. by apply IH, send_sorted.
  - rewrite run_post. by apply IH, send_sorted.
  - cbn [run_proc]. by apply IH.
  - cbn [run_proc]. by apply IH.
  - rewrite run_exec. by apply IH, exec_sorted.
  - cbn [run_proc]. by apply IH.
  - rewrite run_acquire. by apply IH, log_sorted.
  - rewrite run_unlock. by apply IH, log_sorted.
  - cbn [run_proc]. by apply IH, log_sorted.
  - done.
  - cbn [run_proc fst]. by apply log_sorted.
  - done.
Qed.

Lemma run_sorted pre fuel f c p w w' ok :
  sorted_after pre w → run fuel f c p w = Some (w', ok) → sorted_after pre w'.
Proof.
  revert p w. induction fuel as [|fuel IH]; intros p w Hw Hrun; [done|].
  cbn [run] in Hrun. pose proof (run_proc_sorted pre p w Hw) as Hs.
  destruct (run_proc p w) as [w1 [| l |]]; cbn [fst] in Hs.
  - by simplify_eq.
  - by eapply IH.
  - by simplify_eq.
Qed.

(** A call on a keyspace in order commits on keyspaces in order. *)
Lemma perform_sorted f c w w' ok cm :
  db_sorted (store w) → perform f c w = Some (w', ok) →
  cm ∈ commits (events_since w w') →
  db_sorted (before cm) ∧ db_sorted (after cm).
Proof.
  intros Hd Hrun Hcm.
  assert (sorted_after (trace w) w) as Hw.
  { split; [done|]. exists []. rewrite app_nil_r. split; [done|constructor]. }
  destruct (run_sorted _ _ _ _ _ _ _ _ Hw Hrun) as (_ & tr & Htr & Hs).
  rewrite (events_since_app w w' tr Htr) in Hcm.
  unfold commits in Hcm. apply list_elem_of_omap in Hcm as (e & He & Hce).
  eapply Forall_forall in Hs; [|exact He].
  destruct e as [| | |q r d d'| |]; try done.
  destruct r; try done. cbn in Hce. by simplify_eq.
Qed.

End order.

(** ** Notices, evictions, the lock *)

(** C3, as amended. A publish that returns has emitted one notice, right
    after the EXEC that went through and the release of the lock, on the
    publish channel or on the edit channel, with the id, a NUL and the
    item as payload, and has called the callback with the item and the id
    after it, as the last event; when no EXEC was rejected before, the
    notice is an edit exactly when the id was a member of the index that
    the batch did not evict. *)
Theorem publish_announces f uuid item id0 callback w w' :
  perform f (Publish uuid item id0 callback) w = Some (w', true) →
  ∃ pre cm ch r,
    events_since w w'
    = pre ++ [Executed (batch cm) (Arr (replies cm)) (before cm) (after cm);
              Released;
              Sent (Cmd PUBLISH
                      [Str ch;
                       Str (concat (assigned_id uuid id0) (concat nul item))])
                   r]
          ++ (if callback then [Called [Str item; Str (assigned_id uuid id0)]]
              else [])
    ∧ commits pre = [] ∧ notices pre = [] ∧ calls pre = []
    ∧ (ch = publish_chan f ∨ ch = edit_chan f)
    ∧ (count is_executed pre = 0%nat →
       ch = if decide (assigned_id uuid id0 ∈ (zset_at (before cm) (ids_key f)).*1
                       ∧ assigned_id uuid id0 ∉ evicted f (before cm))
            then edit_chan f else publish_chan f).
Proof.
  intros Hrun.
  destruct (publish_returns f uuid item id0 callback w w' Hrun)
    as (wx & pre & stale & now & k & -> & Htr & Hsil & Hq & _ & Hnil & _).
  destruct (finish_trace f uuid item id0 callback wx) as (r & Hfin).
  destruct Hsil as (Hc & Hn & Hk & _).
  exists (Acquired :: pre),
    (Commit (multi wx) (exec_batch (multi wx) (store wx)).2 (store wx)
            (exec_batch (multi wx) (store wx)).1),
    (notice_chan f (exec_batch (multi wx) (store wx)).2), r.
  cbn [batch replies before after].
  split; [|split; [done|split; [done|split; [done|split]]]].
  - apply events_since_app. rewrite Hfin, Htr, <- app_assoc. done.
  - unfold notice_chan. destruct (truthy _); auto.
  - intros Hz. rewrite Hq, (Hnil Hz). apply batch_chan.
Qed.

(** On a first attempt the batch evicts what the rule says and nothing
    else: the first [len - max_length + 1] ids of the index it runs on, none
    when this is not positive. *)
Lemma first_attempt_evicts_overflow f n uuid item id0 callback w w' cm :
  max_length f = Some n → 0 < n →
  perform f (Publish uuid item id0 callback) w = Some (w', true) →
  cm ∈ commits (events_since w w') →
  count is_executed (events_since w w') = 1%nat →
  let zs := zset_at (before cm) (ids_key f) in
  ∃ now,
    batch cm
    = evict_cmds f (take (Z.to_nat (Z.max 0 (Z.of_nat (length zs) - n + 1)))
                         zs.*1)
      ++ item_cmds f item (assigned_id uuid id0) now.
Proof.
  intros Hm Hn Hrun Hcm Hone zs. subst zs.
  pose proof (bounded_positive f n Hm Hn) as Hb.
  destruct (bounded_publish_commit f n Hb uuid item id0 callback w)
    as (w1 & tr & cm0 & stale & now & Hrun1 & Htr & Hcms & Hq & _ & Hnil & _).
  rewrite Hrun1 in Hrun. injection Hrun as <-.
  rewrite (events_since_app w w1 tr Htr) in Hcm, Hone. rewrite Hcms in Hcm.
  apply list_elem_of_singleton in Hcm as ->.
  exists now. rewrite Hq, (Hnil Hone). cbn [app]. unfold overflow.
  by rewrite zset_range_lowest.
Qed.

(** C10. On a feed with a positive [max_length] whose index is full, a
    publish under an id that is already a member still evicts the first
    entries of the index, as many as the index holds beyond
    [max_length - 1], the lowest in score when the keyspace was in order:
    each of them other than the id itself is gone from the index and from
    the items after the commit, and when the id is not among them the
    index is left with fewer than [max_length] members. *)
Theorem edit_evicts f n uuid item id0 callback w w' cm :
  max_length f = Some n → 0 < n →
  perform f (Publish uuid item id0 callback) w = Some (w', true) →
  cm ∈ commits (events_since w w') →
  n ≤ Z.of_nat (length (zset_at (before cm) (ids_key f))) →
  assigned_id uuid id0 ∈ (zset_at (before cm) (ids_key f)).*1 →
  let zs := zset_at (before cm) (ids_key f) in
  let k := Z.to_nat (Z.of_nat (length zs) - n + 1) in
  overflow zs n = (take k zs).*1
  ∧ (0 < length (overflow zs n))%nat
  ∧ (db_sorted (store w) → ∀ e e', e ∈ take k zs → e' ∈ drop k zs → e.2 ≤ e'.2)
  ∧ (∀ x, x ∈ overflow zs n → x ≠ assigned_id uuid id0 →
          (x ∉ (zset_at (after cm) (ids_key f)).*1)
          ∧ (hash_at (after cm) (items_key f) !! x = None))
  ∧ (assigned_id uuid id0 ∉ overflow zs n →
     Z.of_nat (length (zset_at (after cm) (ids_key f))) < n).
Proof.
  intros Hm Hn Hrun Hcm Hfull Hin zs k. subst zs k.
  pose proof (bounded_positive f n Hm Hn) as Hb.
  assert (db_sorted (store w) → db_sorted (before cm)) as Hsorted.
  { intros Hd. by destruct (perform_sorted _ _ _ _ _ _ Hd Hrun Hcm). }
  destruct (bounded_publish_commit f n Hb uuid item id0 callback w)
    as (w1 & tr & cm0 & stale & now & Hrun1 & Htr & Hcms & Hq & Hst & _ & Hafter & _).
  rewrite Hrun1 in Hrun. injection Hrun as <-.
  rewrite (events_since_app w w1 tr Htr), Hcms in Hcm.
  apply list_elem_of_singleton in Hcm as ->.
  set (zs := zset_at (before cm0) (ids_key f)) in *.
  assert (overflow zs n = (take (Z.to_nat (Z.of_nat (length zs) - n + 1)) zs).*1)
    as Hov.
  { unfold overflow. rewrite zset_range_lowest, fmap_take by done. f_equal. lia. }
  split; [done|]. split; [|split; [|split]].
  - rewrite Hov, length_fmap, length_take. lia.
  - intros Hd e e'. apply lowest_first, Hsorted, Hd.
  - intros x Hx Hne. rewrite Hafter, Hq. by apply batch_evicted.
  - intros Hout. rewrite Hafter, Hq. by apply batch_edit_size.
Qed.

Section retract.

Variables (f : feed) (id : string) (callback : bool).

(** A retract takes the lock, watches the index, asks for a rank without
    naming a member, is answered with an error, and leaves through the
    NotFound branch: lock released, UNWATCH sent with the key as an
    argument and answered with an error too, callback called. *)
Lemma retract_pass fuel w :
  ∃ w',
    run (S fuel) f (Retract id callback) (retract f id callback) w
    = Some (w', callback)
    ∧ trace w'
      = trace w
        ++ [Acquired;
            Sent (Cmd WATCH [Str (ids_key f)]) (Str "OK");
            Sent (Cmd ZRANK [Str (ids_key f)]) Undefined;
            Released;
            Sent (Cmd UNWATCH [Str (ids_key f)]) Undefined;
            if callback then Called [Str id; Str "Id does not exist."]
            else Thrown]
    ∧ ids_key f ∈ watched (link w')
    ∧ multi w' = multi w.
Proof.
  unfold retract, feedRetract.
  cbn [run]. rewrite run_acquire, !run_send.
  set (w1 := (send (Cmd WATCH [Str (ids_key f)]) (log Acquired w)).1).
  set (w2 := (send (Cmd ZRANK [Str (ids_key f)]) w1).1).
  assert ((send (Cmd ZRANK [Str (ids_key f)]) w1).2 = Undefined) as -> by done.
  unfold retract_rank_cb. cbn [truthy]. rewrite run_unlock, run_post.
  set (w3 := (send (Cmd UNWATCH [Str (ids_key f)]) (log Released w2)).1).
  assert (trace w3 = trace w ++ [Acquired;
         Sent (Cmd WATCH [Str (ids_key f)]) (Str "OK");
         Sent (Cmd ZRANK [Str (ids_key f)]) Undefined;
         Released;
         Sent (Cmd UNWATCH [Str (ids_key f)]) Undefined]) as Htr.
  { unfold w3. rewrite send_trace. cbn [log trace]. unfold w2.
    rewrite send_trace. unfold w1. rewrite send_trace. cbn [log trace].
    rewrite <- !app_assoc. done. }
  assert (ids_key f ∈ watched (link w3)) as Hw.
  { unfold w3, send. cbn [fst snd serve exec_cmd log set_server link touch watched].
    rewrite arrive_watched. cbn [log link]. unfold w2, send.
    cbn [fst snd serve exec_cmd log set_server link touch watched].
    rewrite arrive_watched. unfold w1. rewrite watch_world.
    cbn [log set_server link watched]. left. }
  assert (multi w3 = multi w) as Hm.
  { unfold w3, send. cbn [fst log set_server multi]. rewrite arrive_multi.
    cbn [log multi]. unfold w2, send. cbn [fst log set_server multi].
    rewrite arrive_multi. unfold w1, send. cbn [fst log set_server multi].
    by rewrite arrive_multi. }
  clearbody w3. clear w1 w2.
  destruct callback; cbn [run_proc]; eexists; (split; [reflexivity|]);
    (split; [|done]); cbn [log trace];
    rewrite Htr, <- app_assoc; done.
Qed.

Lemma retract_run w :
  ∃ w',
    perform f (Retract id callback) w = Some (w', callback)
    ∧ events_since w w'
      = [Acquired;
         Sent (Cmd WATCH [Str (ids_key f)]) (Str "OK");
         Sent (Cmd ZRANK [Str (ids_key f)]) Undefined;
         Released;
         Sent (Cmd UNWATCH [Str (ids_key f)]) Undefined;
         if callback then Called [Str id; Str "Id does not exist."]
         else Thrown]
    ∧ ids_key f ∈ watched (link w')
    ∧ multi w' = multi w.
Proof.
  destruct (retract_pass (2 + length (sched w)) w) as (w' & Hrun & Htr & Hw & Hm).
  exists w'. split; [exact Hrun|]. split; [|done]. by apply events_since_app.
Qed.

End retract.


(** Whatever the reply to ZRANK, the callback releases the lock once: at
    the reply of its EXEC, or before the UNWATCH of the NotFound exit. *)
Lemma retract_rank_cb_releases_once f id callback reply w :
  ∃ tr,
    trace (run_proc (retract_rank_cb f id callback reply) w).1 = trace w ++ tr
    ∧ count is_released tr = 1%nat
    ∧ (count is_executed tr + count is_not_found tr = 1)%nat.
Proof.
  unfold retract_rank_cb. destruct (truthy reply).
  - cbn [run_proc]. rewrite exec_eq. cbv zeta.
    set (wx := arrive _).
    assert (trace wx = trace w) as Hwx by (unfold wx; by rewrite arrive_trace).
    clearbody wx. unfold retract_exec_cb.
    destruct (dirty (link wx)); cbn [fst snd truthy negb run_proc].
    + eexists. cbn [log set_server trace]. rewrite Hwx, <- !app_assoc.
      split; [reflexivity|]. done.
    + destruct callback; eexists; cbn [run_proc fst log set_server trace];
        rewrite Hwx, <- !app_assoc; (split; [reflexivity|]); done.
  - rewrite run_unlock, run_post.
    destruct callback; eexists; cbn [run_proc fst log trace];
      rewrite send_trace; cbn [log trace]; rewrite <- !app_assoc;
      (split; [reflexivity|]); done.
Qed.


(** ** The code at concrete inputs *)

(** C7, at a failing input. Feed news, [max_length] 2, index a1, b1. A
    publish of a new item reads the index and queues the eviction of a1;
    another client removes b1; the EXEC is rejected. The second attempt
    reads the index again, finds nothing to evict, and sends the same
    Multi object: the batch that commits still holds the removal of a1 and
    its retract notice from the first attempt, and a1 is evicted from an
    index of one member. *)
Lemma stale_eviction_committed :
  let w' := next news publish_c1 racing in
  perform news publish_c1 racing = Some (w', true)
  ∧ range_replies (events_since racing w') = [Arr [Str "a1"]; Arr []]
  ∧ batch (the_commit racing w')
    = evict_cmds news ["a1"] ++ item_cmds news "C" "c1" 200
      ++ item_cmds news "C" "c1" 201
  ∧ zset_at (before (the_commit racing w')) (ids_key news) = [("a1", 100)]
  ∧ zset_at (after (the_commit racing w')) (ids_key news) = [("c1", 201)]
  ∧ delivered (after (the_commit racing w')) = [(retract_chan news, "a1")].
Proof. vm_compute. repeat split; reflexivity. Qed.

(** C2, at a failing input: the attempt that commits in [racing] runs on
    an index of one member, for which the rule gives no eviction, and its
    transaction removes a1 from the index and from the items. *)
Lemma retried_attempt_evicts_beyond_overflow :
  let cm := the_commit racing (next news publish_c1 racing) in
  let zs := zset_at (before cm) (ids_key news) in
  Z.of_nat (length zs) - 2 + 1 ≤ 0
  ∧ overflow zs 2 = []
  ∧ zset_mem "a1" zs = true
  ∧ zset_mem "a1" (zset_at (after cm) (ids_key news)) = false
  ∧ hash_at (after cm) (items_key news) !! "a1" = None.
Proof. vm_compute. repeat split; try reflexivity. discriminate. Qed.

(** C4, at a failing input: a1 is a member, the retract of a1 answers
    NotFound, commits nothing and leaves the keyspace as it was. *)
Lemma retract_member_reports_not_found :
  let w' := next news (Retract "a1" true) quiet in
  zset_mem "a1" (zset_at (store quiet) (ids_key news)) = true
  ∧ perform news (Retract "a1" true) quiet = Some (w', true)
  ∧ calls (events_since quiet w') = [[Str "a1"; Str "Id does not exist."]]
  ∧ commits (events_since quiet w') = []
  ∧ store w' = store quiet.
Proof. vm_compute. repeat split; reflexivity. Qed.

(** The rank of the first member is 0, which the test [if (reply)] of the
    callback takes for a missing id. *)
Lemma rank_zero_is_not_found w :
  (exec_cmd (Cmd ZRANK [Str (ids_key news); Str "a1"]) two_items).2 = Num 0
  ∧ run_proc (retract_rank_cb news "a1" true (Num 0)) w
    = run_proc (retract_rank_cb news "a1" true Null) w.
Proof. split; [by vm_compute|done]. Qed.

(** C5, at a failing input: zz is not a member; the retract of zz answers
    NotFound, releases the lock once and leaves the keyspace as it was,
    but its UNWATCH is rejected and the connection still watches the
    index. *)
Lemma retract_unknown_keeps_watching :
  let w' := next news (Retract "zz" true) quiet in
  zset_mem "zz" (zset_at (store quiet) (ids_key news)) = false
  ∧ perform news (Retract "zz" true) quiet = Some (w', true)
  ∧ events_since quiet w'
    = [Acquired;
       Sent (Cmd WATCH [Str (ids_key news)]) (Str "OK");
       Sent (Cmd ZRANK [Str (ids_key news)]) Undefined;
       Released;
       Sent (Cmd UNWATCH [Str (ids_key news)]) Undefined;
       Called [Str "zz"; Str "Id does not exist."]]
  ∧ store w' = store quiet
  ∧ watched (link w') = [ids_key news].
Proof. vm_compute. repeat split; reflexivity. Qed.


(** C3 fails: a1 is a member of the index of the full feed when its item
    is published again, and the notice goes to the publish channel. *)
Lemma edit_of_evicted_id_announced_as_publish :
  let w' := next news edit_a1 quiet in
  perform news edit_a1 quiet = Some (w', true)
  ∧ zset_mem "a1" (zset_at (before (the_commit quiet w')) (ids_key news)) = true
  ∧ notices (events_since quiet w')
    = [(publish_chan news, concat "a1" (concat nul "A2"))]
  ∧ publish_chan news ≠ edit_chan news.
Proof. vm_compute. repeat split; try reflexivity. discriminate. Qed.

(** ** The theorems at concrete inputs *)


Lemma publish_then_get_item_witness :
  (is_Some (bounded news) ∨ link racing = idle)
  ∧ leaves_field (items_key news) "c1" (sched racing)
  ∧ ∃ w1 w2,
      perform news (Publish "c1" "C" None true) racing = Some (w1, true)
      ∧ calls (events_since racing w1) = [[Str "C"; Str "c1"]]
      ∧ perform news (GetItem "c1") w1 = Some (w2, true)
      ∧ events_since w1 w2
        = [Sent (Cmd HGET [Str (items_key news); Str "c1"]) (Str "C");
           Called [Null; Str "C"]].
Proof.
  assert (leaves_field (items_key news) "c1" (sched racing)) as Hq
    by (repeat constructor).
  split; [right; reflexivity|]. split; [exact Hq|].
  apply (publish_then_get_item news "c1" "C" true racing);
    [right; reflexivity|exact Hq].
Defined.

Lemma publish_announces_witness :
  perform news edit_b1 quiet = Some (next news edit_b1 quiet, true)
  ∧ ∃ pre cm ch r,
      events_since quiet (next news edit_b1 quiet)
      = pre ++ [Executed (batch cm) (Arr (replies cm)) (before cm) (after cm);
                Released;
                Sent (Cmd PUBLISH [Str ch; Str (concat "b1" (concat nul "B2"))]) r]
            ++ [Called [Str "B2"; Str "b1"]]
      ∧ commits pre = [] ∧ notices pre = [] ∧ calls pre = []
      ∧ (ch = publish_chan news ∨ ch = edit_chan news)
      ∧ (count is_executed pre = 0%nat →
         ch = if decide ("b1" ∈ (zset_at (before cm) (ids_key news)).*1
                         ∧ "b1" ∉ evicted news (before cm))
              then edit_chan news else publish_chan news).
Proof.
  assert (perform news edit_b1 quiet = Some (next news edit_b1 quiet, true))
    as Hrun by (vm_compute; reflexivity).
  split; [exact Hrun|].
  apply (publish_announces news "u1" "B2" (Some "b1") true quiet _ Hrun).
Defined.

Lemma edit_evicts_witness :
  let w' := next news edit_b1 quiet in
  let cm := the_commit quiet w' in
  let zs := zset_at (before cm) (ids_key news) in
  max_length news = Some 2
  ∧ 0 < 2
  ∧ perform news edit_b1 quiet = Some (w', true)
  ∧ cm ∈ commits (events_since quiet w')
  ∧ 2 ≤ Z.of_nat (length zs)
  ∧ "b1" ∈ zs.*1
  ∧ overflow zs 2 = (take (Z.to_nat (Z.of_nat (length zs) - 2 + 1)) zs).*1
  ∧ (0 < length (overflow zs 2))%nat
  ∧ (db_sorted (store quiet) →
     ∀ e e', e ∈ take (Z.to_nat (Z.of_nat (length zs) - 2 + 1)) zs →
             e' ∈ drop (Z.to_nat (Z.of_nat (length zs) - 2 + 1)) zs →
             e.2 ≤ e'.2)
  ∧ (∀ x, x ∈ overflow zs 2 → x ≠ "b1" →
          (x ∉ (zset_at (after cm) (ids_key news)).*1)
          ∧ (hash_at (after cm) (items_key news) !! x = None))
  ∧ ("b1" ∉ overflow zs 2 →
     Z.of_nat (length (zset_at (after cm) (ids_key news))) < 2).
Proof.
  intros w' cm zs.
  assert (perform news edit_b1 quiet = Some (w', true)) as Hrun
    by (vm_compute; reflexivity).
  assert (cm ∈ commits (events_since quiet w')) as Hcm
    by (vm_compute; left).
  assert (2 ≤ Z.of_nat (length zs)) as Hfull by (vm_compute; discriminate).
  assert ("b1" ∈ zs.*1) as Hin by (vm_compute; right; left).
  split; [reflexivity|]. split; [lia|]. split; [exact Hrun|].
  split; [exact Hcm|]. split; [exact Hfull|]. split; [exact Hin|].
  apply (edit_evicts news 2 "u1" "B2" (Some "b1") true quiet w' cm);
    [reflexivity|lia|exact Hrun|exact Hcm|exact Hfull|exact Hin].
Defined.



(** ** The queue of a publish and what its commit does *)

Section queue_effects.

Variables (f : feed) (item id : string).
Implicit Types (d : db) (q : list command) (xs : list string).

Lemma evict_counter xs d k :
  counter_at (exec_batch (evict_cmds f xs) d).1 k = counter_at d k.
Proof.
  revert d. induction xs as [|x xs IH]; intros d; [done|].
  change (evict_cmds f (x :: xs))
    with ([Cmd ZREM [Str (ids_key f); Str x];
           Cmd HDEL [Str (items_key f); Str x];
           Cmd PUBLISH [Str (retract_chan f); Str x]] ++ evict_cmds f xs).
  rewrite exec_batch_app. cbn [fst]. rewrite IH. done.
Qed.

Lemma item_cmds_counter now d :
  counter_at (exec_batch (item_cmds f item id now) d).1 (publishes_key f)
  = counter_at d (publishes_key f) + 1.
Proof.
  unfold item_cmds. cbn [exec_batch exec_cmd fst snd].
  unfold counter_at, set_counter, set_hash, set_zset. cbn.
  by rewrite lookup_insert_eq.
Qed.

Lemma queued_counter k q d :
  queued f item id k q →
  counter_at (exec_batch q d).1 (publishes_key f)
  = counter_at d (publishes_key f) + Z.of_nat k.
Proof.
  induction 1 as [|k q ev now _ IH]; [cbn; lia|].
  rewrite !exec_batch_app. cbn [fst].
  rewrite item_cmds_counter, evict_counter, IH. lia.
Qed.

Lemma evict_in_step xs d :
  in_step f d → in_step f (exec_batch (evict_cmds f xs) d).1.
Proof.
  intros Hd x. rewrite evict_zset, evict_hash.
  destruct (decide (x ∈ xs)) as [Hx|Hx].
  - split.
    + intros Hin. apply list_elem_of_fmap in Hin as (e & -> & He).
      apply list_elem_of_filter in He as [? _]. done.
    + by intros [? ?].
  - rewrite <- (Hd x). rewrite !list_elem_of_fmap. split.
    + intros (e & -> & He). apply list_elem_of_filter in He as [_ ?]. eauto.
    + intros (e & -> & He). exists e. split; [done|].
      by apply list_elem_of_filter.
Qed.

Lemma item_cmds_in_step now d :
  in_step f d → in_step f (exec_batch (item_cmds f item id now) d).1.
Proof.
  intros Hd x. rewrite item_cmds_zset, item_cmds_hash. unfold zset_add.
  rewrite zset_insert_members, zset_rem_members.
  destruct (decide (x = id)) as [->|Hne].
  - rewrite lookup_insert_eq. split; [eauto|by left].
  - rewrite lookup_insert_ne by done. rewrite <- (Hd x). tauto.
Qed.

Lemma queued_in_step k q d :
  queued f item id k q → in_step f d → in_step f (exec_batch q d).1.
Proof.
  induction 1 as [|k q ev now _ IH]; [done|]. intros Hd.
  rewrite !exec_batch_app. cbn [fst].
  by apply item_cmds_in_step, evict_in_step, IH.
Qed.

Lemma evict_delivered xs d :
  delivered (exec_batch (evict_cmds f xs) d).1
  = delivered d ++ retract_notices f xs.
Proof.
  revert d. induction xs as [|x xs IH]; intros d.
  - cbn. by rewrite app_nil_r.
  - change (evict_cmds f (x :: xs))
      with ([Cmd ZREM [Str (ids_key f); Str x];
             Cmd HDEL [Str (items_key f); Str x];
             Cmd PUBLISH [Str (retract_chan f); Str x]] ++ evict_cmds f xs).
    rewrite exec_batch_app. cbn [fst]. rewrite IH.
    cbn. by rewrite <- app_assoc.
Qed.

Lemma item_cmds_delivered now d :
  delivered (exec_batch (item_cmds f item id now) d).1 = delivered d.
Proof. done. Qed.

End queue_effects.


Section queue_loop.

Variables (f : feed) (n : Z) (uuid item : string) (id0 : option string)
  (callback : bool).
Hypothesis Hbounded : bounded f = Some n.

#[local] Abbreviation id := (assigned_id uuid id0).
#[local] Abbreviation c := (Publish uuid item id0 callback).

Implicit Types (w : world).

(** Rejected attempts leave one group of commands each in the queue. *)
Lemma attempts_queued w wa k :
  rtc (rejects f n item id) w wa →
  queued f item id k (multi w) →
  ∃ pre, trace wa = trace w ++ pre ∧ aborted f n pre
         ∧ queued f item id (k + count is_executed pre) (multi wa).
Proof.
  intros Hrtc. revert k. induction Hrtc as [w|w w1 wa Hstep _ IH]; intros k Hq.
  - exists []. rewrite app_nil_r, Nat.add_0_r. repeat split; [constructor|done].
  - destruct (rejects_trace f n uuid item id0 _ _ Hstep) as (r & q & d & Htr1).
    destruct (IH (S k)) as (pre & Htr & Hab & Hqa).
    { destruct Hstep as [_ ->]. cbn [rejected log set_server multi].
      rewrite at_exec_multi. by constructor. }
    eexists. split; [|split].
    + rewrite Htr, Htr1, <- app_assoc. reflexivity.
    + simpl. by constructor.
    + match goal with |- queued _ _ _ ?m _ =>
        replace m with (S k + count is_executed pre)%nat by (cbn; lia) end.
      done.
Qed.

Lemma bounded_publish_queued w :
  ∃ wx pre r,
    perform f c w = Some (finish f item id callback wx, true)
    ∧ trace wx
      = trace w ++ Acquired :: pre
        ++ [Sent (Cmd WATCH [Str (ids_key f)]) (Str "OK");
            Sent (Cmd ZRANGE [Str (ids_key f); Num 0; Num (- n)]) r]
    ∧ aborted f n pre
    ∧ queued f item id (S (count is_executed pre)) (multi wx).
Proof.
  unfold perform, entry, publish, feedPublish. rewrite Hbounded.
  change (3 + length (sched w))%nat with (S (2 + length (sched w))).
  cbn [run run_proc].
  assert (target f c L_publish_attempt = publish_attempt f n item id callback)
    as -> by (unfold target; by rewrite Hbounded).
  destruct (publish_attempts f n uuid item id0 callback Hbounded
              (2 + length (sched w)) (set_multi [] (log Acquired w)))
    as (wa & Hrtc & Hclean & ->).
  { cbn [set_multi log sched link]. destruct (dirty (link w)); simpl; lia. }
  destruct (attempts_queued _ _ 0 Hrtc) as (pre & Htr & Hab & Hq);
    [constructor|].
  cbn [set_multi log trace] in Htr.
  exists (at_exec f n item id wa), pre. eexists.
  split; [done|]. split; [|split; [done|]].
  - rewrite at_exec_trace, at_read_trace, Htr, <- !app_assoc. done.
  - rewrite at_exec_multi. by constructor.
Qed.

End queue_loop.

Section queue_publish.

Variables (f : feed) (uuid item : string) (id0 : option string)
  (callback : bool).

#[local] Abbreviation id := (assigned_id uuid id0).
#[local] Abbreviation c := (Publish uuid item id0 callback).

(** The events of a publish that returns, with the queue of the EXEC that
    went through: the lock, rejected attempts, the accepted EXEC, the
    release, the notice, the callback. *)
Lemma publish_trace w w' :
  perform f c w = Some (w', true) →
  ∃ wx pre r,
    events_since w w'
    = Acquired :: pre
      ++ [Executed (multi wx) (Arr (exec_batch (multi wx) (store wx)).2)
                   (store wx) (exec_batch (multi wx) (store wx)).1;
          Released;
          Sent (Cmd PUBLISH
                  [Str (notice_chan f (exec_batch (multi wx) (store wx)).2);
                   Str (concat id (concat nul item))]) r]
      ++ (if callback then [Called [Str item; Str id]] else [])
    ∧ commits pre = []
    ∧ count is_acquired pre = 0%nat
    ∧ count is_released pre = count is_executed pre
    ∧ count is_rejected pre = count is_executed pre
    ∧ queued f item id (S (count is_executed pre)) (multi wx).
Proof.
  intros Hrun. destruct (bounded f) as [n|] eqn:Hb.
  - destruct (bounded_publish_queued f n uuid item id0 callback Hb w)
      as (wx & pre & r & Hrun' & Htr & Hab & Hq).
    rewrite Hrun' in Hrun. injection Hrun as <-.
    destruct (finish_trace f uuid item id0 callback wx) as (r' & Hfin).
    destruct (aborted_quiet f n pre Hab) as (Hc & _ & _ & Ha & Hr & Hj & _).
    exists wx, (pre ++ [Sent (Cmd WATCH [Str (ids_key f)]) (Str "OK");
                       Sent (Cmd ZRANGE [Str (ids_key f); Num 0; Num (- n)]) r]),
      r'.
    split; [|split; [|split; [|split; [|split]]]].
    + apply events_since_app. rewrite Hfin, Htr, <- !app_assoc. cbn [app].
      by rewrite <- !app_assoc.
    + by rewrite commits_app, Hc.
    + rewrite count_app, Ha. done.
    + rewrite !count_app, Hr. done.
    + rewrite !count_app, Hj. done.
    + rewrite count_app. cbn. by rewrite Nat.add_0_r.
  - rewrite unbounded_publish in Hrun by done. cbv zeta in Hrun.
    destruct (at_exec_unbounded_facts f uuid item id0 w) as (Htr & Hq & _).
    destruct (dirty (link (at_exec_unbounded f item id w))); [done|].
    injection Hrun as <-.
    destruct (finish_trace f uuid item id0 callback
                (at_exec_unbounded f item id w)) as (r' & Hfin).
    exists (at_exec_unbounded f item id w), [], r'.
    split; [|split; [done|split; [done|split; [done|split; [done|]]]]].
    + apply events_since_app. rewrite Hfin, Htr, <- !app_assoc. done.
    + rewrite Hq. apply (queued_attempt f item id 0 [] []). constructor.
Qed.

End queue_publish.

(** X1. The counter of publishes goes up by one for each EXEC that the
    call sent: by one when the first attempt commits, for a new id and for
    an edit alike, and by one more for each attempt that was rejected. *)
Theorem publish_counts_attempts f uuid item id0 callback w w' :
  perform f (Publish uuid item id0 callback) w = Some (w', true) →
  ∃ cm,
    commits (events_since w w') = [cm]
    ∧ counter_at (after cm) (publishes_key f)
      = counter_at (before cm) (publishes_key f)
        + Z.of_nat (count is_executed (events_since w w')).
Proof.
  intros Hrun.
  destruct (publish_trace f uuid item id0 callback w w' Hrun)
    as (wx & pre & r & -> & Hc & _ & _ & _ & Hq).
  eexists (Commit _ _ _ _). split.
  - change (commits (Acquired :: ?x)) with (commits x).
    rewrite !commits_app, Hc. by destruct callback.
  - cbn [after before]. rewrite (queued_counter _ _ _ _ _ _ Hq).
    change (count is_executed (Acquired :: ?x)) with (count is_executed x).
    rewrite !count_app. destruct callback; cbn; lia.
Qed.

(** X2. A commit of a publish keeps the index and the item map in step: when
    they hold the same ids in the keyspace the EXEC runs on, they hold the
    same ids after it, whatever earlier attempts left in the queue. *)
Theorem publish_keeps_in_step f uuid item id0 callback w w' cm :
  perform f (Publish uuid item id0 callback) w = Some (w', true) →
  cm ∈ commits (events_since w w') →
  in_step f (before cm) → in_step f (after cm).
Proof.
  intros Hrun Hcm.
  destruct (publish_trace f uuid item id0 callback w w' Hrun)
    as (wx & pre & r & Hev & Hc & _ & _ & _ & Hq).
  rewrite Hev in Hcm.
  change (commits (Acquired :: ?x)) with (commits x) in Hcm.
  rewrite !commits_app, Hc in Hcm.
  assert (cm = Commit (multi wx) (exec_batch (multi wx) (store wx)).2 (store wx)
                      (exec_batch (multi wx) (store wx)).1) as ->.
  { destruct callback; cbn in Hcm; by apply list_elem_of_singleton in Hcm. }
  cbn [before after]. by apply (queued_in_step f item (assigned_id uuid id0) _ _ _ Hq).
Qed.



Section more_zsets.

Implicit Types (zs : zset) (m : string) (s : Z).



(** A score above all the others goes to the end. *)
Lemma zset_insert_last m s zs :
  Forall (λ e, e.2 < s) zs → zset_insert m s zs = zs ++ [(m, s)].
Proof.
  induction 1 as [|e zs He _ IH]; cbn [zset_insert]; [done|].
  unfold entry_lt. replace (s <? e.2) with false by lia.
  replace (s =? e.2) with false by lia. cbn [orb andb]. by rewrite IH.
Qed.

(** ZRANGE key 0 -1 is the whole set. *)
Lemma zset_range_all zs : zset_range zs 0 (-1) = zs.*1.
Proof.
  unfold zset_range.
  remember (Z.of_nat (length zs)) as len eqn:Hlen. simpl.
  destruct zs as [|e zs]; [subst; done|].
  assert (0 < len) by (subst; cbn [length]; lia).
  replace (len + -1 <? 0) with false by lia.
  replace (len <=? 0) with false by lia. cbn [orb].
  replace (len <=? len + -1) with false by lia.
  rewrite drop_0. apply take_ge. rewrite length_fmap. lia.
Qed.

(** ZRANGE key 0 k, for k that is not negative, is the first [k + 1]
    members. *)
Lemma zset_range_first zs k :
  0 ≤ k → zset_range zs 0 k = take (Z.to_nat (k + 1)) zs.*1.
Proof.
  intros Hk. unfold zset_range.
  remember (Z.of_nat (length zs)) as len eqn:Hlen. simpl.
  destruct (Z.ltb_spec k 0) as [?|_]; [lia|].
  destruct (Z.ltb_spec k 0) as [?|_]; [lia|].
  destruct (Z.leb_spec len 0) as [Hz|Hpos]; cbn [orb].
  - assert (length zs = 0%nat) as Hl by lia.
    destruct zs; [|done]. symmetry. apply take_nil.
  - rewrite drop_0. destruct (Z.leb_spec len k) as [Hle|Hlt].
    + rewrite !take_ge; [done| |]; rewrite length_fmap; lia.
    + f_equal. lia.
Qed.

End more_zsets.

Section stale.

Variables (f : feed) (item id : string).

Lemma leftover_delivered c d :
  leftover f item id c →
  ∃ old, delivered (exec_cmd c d).1 = delivered d ++ old
         ∧ Forall (λ m, m.1 = retract_chan f) old.
Proof.
  destruct 1; try (exists []; split; [symmetry; apply app_nil_r|constructor]).
  exists [(retract_chan f, x)]. split; [done|]. by repeat constructor.
Qed.

Lemma leftovers_delivered q d :
  Forall (leftover f item id) q →
  ∃ old, delivered (exec_batch q d).1 = delivered d ++ old
         ∧ Forall (λ m, m.1 = retract_chan f) old.
Proof.
  intros Hq. revert d. induction Hq as [|c q Hc _ IH]; intros d.
  - exists []. split; [symmetry; apply app_nil_r|constructor].
  - rewrite exec_batch_cons. cbn [fst].
    destruct (leftover_delivered c d Hc) as (o1 & H1 & Ho1).
    destruct (IH (exec_cmd c d).1) as (o2 & H2 & Ho2).
    exists (o1 ++ o2). rewrite H2, H1, app_assoc. split; [done|].
    by apply Forall_app.
Qed.

End stale.

(** The world in which the EXEC of a publish that returns was accepted. *)
Lemma publish_commit_world f uuid item id0 callback w w' cm :
  perform f (Publish uuid item id0 callback) w = Some (w', true) →
  cm ∈ commits (events_since w w') →
  ∃ wx stale now k,
    w' = finish f item (assigned_id uuid id0) callback wx
    ∧ cm = Commit (multi wx) (exec_batch (multi wx) (store wx)).2 (store wx)
                  (exec_batch (multi wx) (store wx)).1
    ∧ multi wx
      = stale ++ evict_cmds f (evicted f (store wx))
              ++ item_cmds f item (assigned_id uuid id0) now
    ∧ Forall (leftover f item (assigned_id uuid id0)) stale
    ∧ (count is_executed (events_since w w') = 1%nat → stale = [])
    ∧ sched wx = drop k (sched w).
Proof.
  intros Hrun Hcm.
  destruct (publish_returns f uuid item id0 callback w w' Hrun)
    as (wx & pre & stale & now & k & -> & Htr & Hsil & Hq & Hst & Hnil & Hs).
  destruct (finish_trace f uuid item id0 callback wx) as (r & Hfin).
  destruct Hsil as (Hc & _).
  revert Hcm. erewrite !events_since_app; last first.
  { rewrite Hfin, Htr, <- app_assoc. reflexivity. }
  intros Hcm. rewrite !commits_app in Hcm.
  change (commits (Acquired :: pre)) with (commits pre) in Hcm.
  rewrite Hc in Hcm.
  exists wx, stale, now, k. split; [done|]. split.
  { destruct callback; cbn in Hcm; by apply list_elem_of_singleton in Hcm. }
  split; [done|]. split; [done|]. split; [|done].
  intros Hone. apply Hnil. rewrite !count_app in Hone.
  change (count is_executed (Acquired :: pre)) with (count is_executed pre) in Hone.
  destruct callback; cbn in Hone; lia.
Qed.

(** The commit of a publish that returns, with its queue. *)
Lemma publish_commit f uuid item id0 callback w w' cm :
  perform f (Publish uuid item id0 callback) w = Some (w', true) →
  cm ∈ commits (events_since w w') →
  ∃ stale now,
    batch cm
    = stale ++ evict_cmds f (evicted f (before cm))
            ++ item_cmds f item (assigned_id uuid id0) now
    ∧ Forall (leftover f item (assigned_id uuid id0)) stale
    ∧ (count is_executed (events_since w w') = 1%nat → stale = [])
    ∧ after cm = (exec_batch (batch cm) (before cm)).1.
Proof.
  intros Hrun Hcm.
  destruct (publish_commit_world f uuid item id0 callback w w' cm Hrun Hcm)
    as (wx & stale & now & k & _ & -> & Hq & Hst & Hnil & _).
  by exists stale, now.
Qed.

(** X3. The messages that the transaction of a publish delivers are retract
    notices only, and the last of them are those of the ids that this
    attempt evicts, in the order of the index; when the first attempt
    commits there are no others. *)
Theorem commit_delivers_retract_notices f uuid item id0 callback w w' cm :
  perform f (Publish uuid item id0 callback) w = Some (w', true) →
  cm ∈ commits (events_since w w') →
  ∃ old,
    delivered (after cm)
    = delivered (before cm) ++ old ++ retract_notices f (evicted f (before cm))
    ∧ Forall (λ m, m.1 = retract_chan f) old
    ∧ (count is_executed (events_since w w') = 1%nat → old = []).
Proof.
  intros Hrun Hcm.
  destruct (publish_commit f uuid item id0 callback w w' cm Hrun Hcm)
    as (stale & now & Hq & Hst & Hnil & ->).
  rewrite Hq, !exec_batch_app. cbn [fst].
  rewrite item_cmds_delivered, evict_delivered.
  destruct (decide (stale = [])) as [->|Hne].
  - exists []. split; [done|]. split; [constructor|done].
  - destruct (leftovers_delivered f item (assigned_id uuid id0) stale (before cm) Hst)
      as (old & Hold & Hall).
    exists old. rewrite Hold, <- app_assoc. split; [done|]. split; [done|].
    intros Hone. by destruct (Hne (Hnil Hone)).
Qed.


(** X5. A publish takes the lock once, as its first event, however many
    attempts it makes, and releases it once for each EXEC: every attempt
    after a rejected EXEC runs without the lock. *)
Theorem publish_locks_once f uuid item id0 callback w w' :
  perform f (Publish uuid item id0 callback) w = Some (w', true) →
  ∃ tr,
    events_since w w' = Acquired :: tr
    ∧ count is_acquired tr = 0%nat
    ∧ count is_released tr = count is_executed tr
    ∧ count is_executed tr = S (count is_rejected tr).
Proof.
  intros Hrun.
  destruct (publish_trace f uuid item id0 callback w w' Hrun)
    as (wx & pre & r & -> & _ & Ha & Hr & Hj & _).
  eexists. split; [done|].
  rewrite !count_app, Ha, Hr, Hj. destruct callback; cbn; lia.
Qed.


(** ** Publish, retract and the reads against the other clients *)

Section worlds.

Implicit Types (w : world) (c : command).

Lemma arrive_log e w : arrive (log e w) = log e (arrive w).
Proof. unfold arrive. cbn [log sched]. by destruct (sched w). Qed.

Lemma arrive_set_multi q w : arrive (set_multi q w) = set_multi q (arrive w).
Proof. unfold arrive. cbn [set_multi sched]. by destruct (sched w). Qed.

Lemma foreign_cmds_store cs (s s' : db * conn) :
  s.1 = s'.1 → (foreign_cmds cs s).1 = (foreign_cmds cs s').1.
Proof.
  revert s s'. induction cs as [|c cs IH]; intros s s' Hs; [done|].
  change (foreign_cmds (c :: cs) ?x) with (foreign_cmds cs (foreign_cmd c x)).
  apply IH. cbn [foreign_cmd fst]. by rewrite Hs.
Qed.

(** What the other clients make of the keyspace does not depend on this
    connection. *)
Lemma arrive_store w v :
  store w = store v → sched w = sched v →
  store (arrive w) = store (arrive v) ∧ sched (arrive w) = sched (arrive v).
Proof.
  intros Hs Hq. unfold arrive. rewrite <- Hq.
  destruct (sched w) as [|t rest] eqn:E; [split; congruence|].
  cbn [store sched]. split; [|done]. by apply foreign_cmds_store.
Qed.

(** A command that the server answers without writing leaves the keyspace
    to the other clients. *)
Lemma send_reads c w :
  (∀ d, (exec_cmd c d).1 = d) →
  store (send c w).1 = store (arrive w)
  ∧ sched (send c w).1 = sched (arrive w).
Proof.
  intros Hc. unfold send. cbn [fst log set_server store sched]. split; [|done].
  destruct c as [nm args]. unfold serve.
  repeat case_match; simplify_eq; cbn [fst]; try done;
    match goal with H : exec_cmd ?c ?d = _ |- _ =>
      pose proof (Hc d) as Hx; rewrite H in Hx; exact Hx end.
Qed.

Lemma dirty_arrive w k :
  k ∈ watched (link w) →
  zset_at (store (arrive w)) k ≠ zset_at (store w) k →
  dirty (link (arrive w)) = true.
Proof.
  intros Hk Hne. destruct (dirty (link (arrive w))) eqn:Hd; [done|].
  by destruct (arrive_clean w k Hd Hk).
Qed.

End worlds.


Lemma no_bound f :
  max_length f = None ∨ max_length f = Some 0 → bounded f = None.
Proof. unfold bounded. by intros [->| ->]. Qed.

(** X6. A feed without [max_length], or with [max_length] 0, never evicts.
    On a connection that is not in a transaction a publish commits at its
    only EXEC the three writes stamped with the time of the call; every id
    of the index stays, and a new id makes the index one longer. *)
Theorem unbounded_publish_appends f uuid item id0 callback w :
  max_length f = None ∨ max_length f = Some 0 →
  link w = idle →
  ∃ w' cm,
    perform f (Publish uuid item id0 callback) w = Some (w', true)
    ∧ commits (events_since w w') = [cm]
    ∧ count is_executed (events_since w w') = 1%nat
    ∧ batch cm = item_cmds f item (assigned_id uuid id0) (clock w)
    ∧ after cm = (exec_batch (batch cm) (before cm)).1
    ∧ (∀ x, x ∈ (zset_at (before cm) (ids_key f)).*1 →
            x ∈ (zset_at (after cm) (ids_key f)).*1)
    ∧ (assigned_id uuid id0 ∉ (zset_at (before cm) (ids_key f)).*1 →
       length (zset_at (after cm) (ids_key f))
       = S (length (zset_at (before cm) (ids_key f)))).
Proof.
  intros Hm Hidle. pose proof (no_bound f Hm) as Hb.
  destruct (at_exec_unbounded_facts f uuid item id0 w) as (Htr & Hq & _ & Hd).
  set (wx := at_exec_unbounded f item (assigned_id uuid id0) w) in *.
  destruct (finish_trace f uuid item id0 callback wx) as (r & Hfin).
  exists (finish f item (assigned_id uuid id0) callback wx),
    (Commit (multi wx) (exec_batch (multi wx) (store wx)).2 (store wx)
            (exec_batch (multi wx) (store wx)).1).
  split.
  { rewrite unbounded_publish by done. cbv zeta. fold wx. by rewrite Hd. }
  erewrite events_since_app; last first.
  { rewrite Hfin, Htr, <- app_assoc. reflexivity. }
  cbn [batch before after].
  split; [by destruct callback|]. split; [by destruct callback|].
  split; [done|]. split; [done|]. rewrite Hq, item_cmds_zset. split.
  - intros x Hx. unfold zset_add. rewrite zset_insert_members, zset_rem_members.
    destruct (decide (x = assigned_id uuid id0)); tauto.
  - intros Hnew. rewrite zset_add_length. f_equal. unfold others, zset_rem.
    f_equal. apply filter_all. intros e He Heq. apply Hnew.
    apply list_elem_of_fmap. eauto.
Qed.

(** An unbounded publish whose EXEC reaches a marked connection: the EXEC
    is rejected, the lock released, and [reply.slice] throws. *)
Lemma unbounded_publish_rejected f uuid item id0 callback w :
  bounded f = None → dirty (link (arrive w)) = true →
  ∃ w' q,
    perform f (Publish uuid item id0 callback) w = Some (w', false)
    ∧ events_since w w'
      = [Acquired;
         Executed q Null (store (arrive w)) (store (arrive w));
         Released; Thrown]
    ∧ store w' = store (arrive w)
    ∧ link w' = idle.
Proof.
  intros Hb Hd.
  destruct (at_exec_unbounded_facts f uuid item id0 w) as (Htr & _).
  assert (at_exec_unbounded f item (assigned_id uuid id0) w
          = set_multi (item_cmds f item (assigned_id uuid id0) (clock w))
                      (log Acquired (arrive w))) as Hwx.
  { unfold at_exec_unbounded. by rewrite arrive_set_multi, arrive_log. }
  set (wx := at_exec_unbounded f item (assigned_id uuid id0) w) in *.
  exists (log Thrown (rejected wx)), (multi wx).
  split.
  { rewrite unbounded_publish by done. cbv zeta. fold wx.
    rewrite Hwx. cbn [set_multi log link]. by rewrite Hd. }
  split; [|split].
  - apply events_since_app. cbn [rejected log set_server trace].
    rewrite Htr, <- !app_assoc. by rewrite Hwx.
  - by rewrite Hwx.
  - done.
Qed.

(** X7. A retract leaves through the NotFound branch whatever the id, a
    member of the index or not: no EXEC, no notice, nothing written, the
    callback called with the error, and the connection still watching the
    index when the call is over. Without a callback the last line throws,
    after the lock was released. *)
Theorem retract_never_removes f id callback w :
  ∃ w',
    perform f (Retract id callback) w = Some (w', callback)
    ∧ commits (events_since w w') = []
    ∧ notices (events_since w w') = []
    ∧ events_since w w' !! 3%nat = Some Released
    ∧ last (events_since w w')
      = Some (if callback then Called [Str id; Str "Id does not exist."]
              else Thrown)
    ∧ store w' = store (arrive (arrive (arrive w)))
    ∧ ids_key f ∈ watched (link w').
Proof.
  destruct (retract_run f id callback w) as (w' & Hrun & Hev & Hw & _).
  exists w'. split; [done|]. rewrite Hev.
  split; [by destruct callback|]. split; [by destruct callback|].
  split; [done|]. split; [by destruct callback|]. split; [|done].
  clear Hev Hw. unfold perform, entry, retract, feedRetract in Hrun.
  change (3 + length (sched w))%nat with (S (2 + length (sched w))) in Hrun.
  cbn [run] in Hrun. rewrite run_acquire, !run_send in Hrun.
  set (w1 := (send (Cmd WATCH [Str (ids_key f)]) (log Acquired w)).1) in *.
  set (w2 := (send (Cmd ZRANK [Str (ids_key f)]) w1).1) in *.
  assert ((send (Cmd ZRANK [Str (ids_key f)]) w1).2 = Undefined) as Hr by done.
  rewrite Hr in Hrun. unfold retract_rank_cb in Hrun. cbn [truthy] in Hrun.
  rewrite run_unlock, run_post in Hrun.
  set (w3 := (send (Cmd UNWATCH [Str (ids_key f)]) (log Released w2)).1) in *.
  assert (store w' = store w3) as ->.
  { destruct callback; cbn [run_proc] in Hrun; by simplify_eq. }
  destruct (send_reads (Cmd WATCH [Str (ids_key f)]) (log Acquired w))
    as [Hs1 Hq1]; [done|].
  destruct (send_reads (Cmd ZRANK [Str (ids_key f)]) w1) as [Hs2 Hq2]; [done|].
  destruct (send_reads (Cmd UNWATCH [Str (ids_key f)]) (log Released w2))
    as [Hs3 _]; [done|].
  fold w1 in Hs1, Hq1. fold w2 in Hs2, Hq2. fold w3 in Hs3.
  rewrite arrive_log in Hs1, Hq1, Hs3. cbn [log store sched] in Hs1, Hq1, Hs3.
  destruct (arrive_store w1 (arrive w) Hs1 Hq1) as [Ha Hb].
  rewrite <- Hs2 in Ha. rewrite <- Hq2 in Hb.
  destruct (arrive_store w2 (arrive (arrive w)) Ha Hb) as [Hc _].
  by rewrite Hs3.
Qed.

(** X8. On a feed that is not bounded, a publish that follows a retract
    throws when another client has changed the index by the time its EXEC
    arrives: the watch that the retract left rejects the EXEC, the reply
    is null, and [reply.slice] is a TypeError after the lock was released.
    Nothing of the item is written and no callback is called. *)
Theorem publish_after_retract_throws f id cb uuid item id0 callback w w1 :
  max_length f = None ∨ max_length f = Some 0 →
  perform f (Retract id cb) w = Some (w1, true) →
  zset_at (store (arrive w1)) (ids_key f) ≠ zset_at (store w1) (ids_key f) →
  ∃ w2 q,
    perform f (Publish uuid item id0 callback) w1 = Some (w2, false)
    ∧ events_since w1 w2
      = [Acquired;
         Executed q Null (store (arrive w1)) (store (arrive w1));
         Released; Thrown]
    ∧ store w2 = store (arrive w1).
Proof.
  intros Hm Hret Hne.
  destruct (retract_run f id cb w) as (w' & Hrun & _ & Hw & _).
  rewrite Hrun in Hret. injection Hret as -> _.
  destruct (unbounded_publish_rejected f uuid item id0 callback w1)
    as (w2 & q & Hp & Hev & Hs & _).
  { by apply no_bound. }
  { by apply (dirty_arrive w1 (ids_key f)). }
  by exists w2, q.
Qed.

(** X9. [getIds] takes no lock and writes nothing: it calls back with no
    error and every id of the index, in the order of the index, lowest
    score first when the keyspace was in order, and with an empty array
    when the feed has no index. *)
Theorem get_ids_lists_index f w :
  ∃ w',
    perform f GetIds w = Some (w', true)
    ∧ events_since w w'
      = [Sent (Cmd ZRANGE [Str (ids_key f); Num 0; Num (-1)])
              (Arr (Str <$> (zset_at (store w') (ids_key f)).*1));
         Called [Null; Arr (Str <$> (zset_at (store w') (ids_key f)).*1)]]
    ∧ store w' = store (arrive w)
    ∧ (zsets (store w') !! ids_key f = None →
       calls (events_since w w') = [[Null; Arr []]])
    ∧ (db_sorted (store w) → score_sorted (zset_at (store w') (ids_key f))).
Proof.
  set (c := Cmd ZRANGE [Str (ids_key f); Num 0; Num (-1)]).
  exists (log (Called [Null; (send c w).2]) (send c w).1).
  split; [reflexivity|].
  assert (store (log (Called [Null; (send c w).2]) (send c w).1)
          = store (arrive w)) as Hs.
  { cbn [log store]. unfold c. by rewrite zrange_world. }
  assert ((send c w).2 = Arr (Str <$> (zset_at (store (arrive w)) (ids_key f)).*1))
    as Hr.
  { unfold c. by rewrite zrange_reply, zset_range_all. }
  assert (events_since w (log (Called [Null; (send c w).2]) (send c w).1)
          = [Sent c (Arr (Str <$> (zset_at (store (arrive w)) (ids_key f)).*1));
             Called [Null; Arr (Str <$> (zset_at (store (arrive w)) (ids_key f)).*1)]])
    as Hev.
  { apply events_since_app. cbn [log trace]. rewrite send_trace, Hr.
    by rewrite <- app_assoc. }
  rewrite Hev, Hs. split; [done|]. split; [done|]. split.
  - intros Hnone. unfold zset_at. by rewrite Hnone.
  - intros Hd. by apply arrive_sorted.
Qed.


Lemma get_item_none f id w :
  hash_at (store (arrive w)) (items_key f) !! id = None →
  ∃ w', perform f (GetItem id) w = Some (w', true)
        ∧ trace w' = trace w ++ [Sent (Cmd HGET [Str (items_key f); Str id]) Null;
                                 Called [Null; Null]].
Proof.
  intros Hv.
  exists (log (Called [Null; (send (Cmd HGET [Str (items_key f); Str id]) w).2])
              (send (Cmd HGET [Str (items_key f); Str id]) w).1).
  split; [reflexivity|].
  cbn [log trace]. rewrite send_trace, <- app_assoc.
  unfold send. cbn [fst snd serve exec_cmd]. by rewrite Hv.
Qed.

(** X10. An id that a publish evicts cannot be read any more: it is not in
    the index after the commit, and [getItem] of it, called after the
    publish has returned, calls back with null for the item and no error,
    as long as no other client writes that item again. *)
Theorem evicted_item_is_gone f uuid item id0 callback w w1 cm x :
  perform f (Publish uuid item id0 callback) w = Some (w1, true) →
  cm ∈ commits (events_since w w1) →
  x ∈ evicted f (before cm) → x ≠ assigned_id uuid id0 →
  leaves_field (items_key f) x (sched w) →
  (x ∉ (zset_at (after cm) (ids_key f)).*1)
  ∧ ∃ w2,
      perform f (GetItem x) w1 = Some (w2, true)
      ∧ events_since w1 w2
        = [Sent (Cmd HGET [Str (items_key f); Str x]) Null;
           Called [Null; Null]].
Proof.
  intros Hrun Hcm Hx Hne Hquiet.
  destruct (publish_commit_world f uuid item id0 callback w w1 cm Hrun Hcm)
    as (wx & stale & now & k & -> & -> & Hq & _ & _ & Hs).
  cbn [before after] in *.
  destruct (batch_evicted f item (assigned_id uuid id0) (evicted f (store wx))
              now stale (store wx) x Hx Hne) as [Hout Hnone].
  rewrite <- Hq in Hout, Hnone. split; [done|].
  assert (leaves_field (items_key f) x (sched wx)) as Hqx.
  { rewrite Hs. by apply leaves_field_drop. }
  set (w1 := finish f item (assigned_id uuid id0) callback wx).
  assert (hash_at (store w1) (items_key f) !! x = None
          ∧ sched w1 = tail (sched wx)) as [Hgone Hsched].
  { unfold w1, finish. rewrite announce_run. cbn [fst]. split.
    - assert (∀ w0, store ((if callback
                            then log (Called [Str item; Str (assigned_id uuid id0)])
                            else λ w, w) w0) = store w0) as ->
        by by destruct callback.
      unfold send. cbn [fst snd serve exec_cmd log set_server store].
      rewrite hash_at_deliver, arrive_field by done.
      exact Hnone.
    - assert (∀ w0, sched ((if callback
                            then log (Called [Str item; Str (assigned_id uuid id0)])
                            else λ w, w) w0) = sched w0) as ->
        by by destruct callback.
      by rewrite send_sched. }
  destruct (get_item_none f x w1) as (w2 & Hget & Htr).
  { rewrite arrive_field; [done|]. rewrite Hsched. by apply leaves_field_tail. }
  exists w2. split; [done|]. by apply events_since_app.
Qed.

(** X11. A negative [max_length] is a bound of another kind: every attempt
    of a publish evicts the [1 - max_length] first ids of the index it
    reads, so that after the commit the index holds at most one id more
    than the index held beyond those. *)
Theorem negative_bound_evicts f n uuid item id0 callback w w' cm :
  max_length f = Some n → n < 0 →
  perform f (Publish uuid item id0 callback) w = Some (w', true) →
  cm ∈ commits (events_since w w') →
  let zs := zset_at (before cm) (ids_key f) in
  evicted f (before cm) = take (Z.to_nat (1 - n)) zs.*1
  ∧ (∀ x, x ∈ evicted f (before cm) → x ≠ assigned_id uuid id0 →
          (x ∉ (zset_at (after cm) (ids_key f)).*1)
          ∧ (hash_at (after cm) (items_key f) !! x = None))
  ∧ (length (zset_at (after cm) (ids_key f))
     ≤ S (length zs - Z.to_nat (1 - n)))%nat.
Proof.
  intros Hm Hn Hrun Hcm zs. subst zs.
  destruct (publish_commit f uuid item id0 callback w w' cm Hrun Hcm)
    as (stale & now & Hq & Hst & _ & ->).
  assert (evicted f (before cm)
          = take (Z.to_nat (1 - n)) (zset_at (before cm) (ids_key f)).*1) as Hev.
  { unfold evicted, bounded. rewrite Hm. cbn [truthy].
    replace (n =? 0) with false by lia. cbn [negb]. unfold overflow.
    rewrite zset_range_first by lia. f_equal. lia. }
  split; [done|]. rewrite Hq. split.
  - intros x Hx Hne. by apply batch_evicted.
  - pose proof (batch_others f item (assigned_id uuid id0)
                  (evicted f (before cm)) now stale (before cm) Hst) as Hsub.
    apply sublist_length in Hsub.
    rewrite batch_index, zset_add_length in *. rewrite others_add in Hsub.
    set (zs := zset_at (before cm) (ids_key f)) in *.
    assert (length (others (assigned_id uuid id0)
                      (filter (λ e, e.1 ∉ evicted f (before cm)) zs))
            ≤ length zs - Z.to_nat (1 - n))%nat as Hout.
    { etrans; [apply length_filter|]. rewrite Hev, <- fmap_take.
      apply (filter_out_prefix fst). }
    lia.
Qed.


Lemma filter_after_prefix {A B} (g : A → B) `{EqDecision B} (k : nat) (l : list A) :
  NoDup (g <$> l) → filter (λ e, g e ∉ g <$> take k l) l = drop k l.
Proof.
  intros Hnd. rewrite <- (take_drop k l) in Hnd.
  rewrite fmap_app in Hnd. apply NoDup_app in Hnd as (_ & Hdis & _).
  set (P := λ e, g e ∉ g <$> take k l).
  rewrite <- (take_drop k l) at 1. rewrite filter_app.
  rewrite (filter_none P (take k l)), app_nil_l.
  - apply filter_all. intros x Hx Hin. eapply Hdis; [exact Hin|].
    apply list_elem_of_fmap. eauto.
  - intros x Hx Hout. apply Hout. apply list_elem_of_fmap. eauto.
Qed.

Lemma get_ids_run f w :
  perform f GetIds w
  = Some (log (Called [Null; Arr (Str <$> (zset_at (store (arrive w)) (ids_key f)).*1)])
              (log (Sent (Cmd ZRANGE [Str (ids_key f); Num 0; Num (-1)])
                         (Arr (Str <$> (zset_at (store (arrive w)) (ids_key f)).*1)))
                   (arrive w)), true).
Proof.
  unfold perform, entry, feedGetIds.
  change (3 + length (sched w))%nat with (S (2 + length (sched w))).
  cbn [run]. rewrite run_send, zrange_reply, zrange_world, zset_range_all. done.
Qed.

Section still.

Variables (f : feed) (n : Z) (item id : string) (callback : bool).

Implicit Types (w : world).

(** With no other client, the EXEC of an attempt runs on the keyspace
    and at the time at which the attempt started. *)
Lemma at_exec_still w :
  sched w = [] →
  store (at_exec f n item id w) = store w
  ∧ sched (at_exec f n item id w) = []
  ∧ multi (at_exec f n item id w)
    = multi w ++ evict_cmds f (overflow (zset_at (store w) (ids_key f)) n)
              ++ item_cmds f item id (clock w).
Proof.
  intros Hs.
  assert (store (at_read f n w) = store w ∧ clock (at_read f n w) = clock w
          ∧ sched (at_read f n w) = []) as (Hst & Hc & Hq).
  { rewrite at_read_eq, watch_world, (arrive_quiet w Hs).
    rewrite (arrive_quiet (log _ _)) by done. done. }
  split; [|split].
  - unfold at_exec. cbv zeta. rewrite arrive_quiet by done. done.
  - rewrite at_exec_sched, Hs. done.
  - by rewrite at_exec_multi, Hst, Hc.
Qed.

End still.

(** A bounded publish with no other client around and a connection that
    is not in a transaction: the first attempt commits. *)
Lemma quiet_publish f n uuid item id0 callback w :
  bounded f = Some n → sched w = [] → link w = idle →
  ∃ w',
    perform f (Publish uuid item id0 callback) w = Some (w', true)
    ∧ sched w' = []
    ∧ zset_at (store w') (ids_key f)
      = zset_add (assigned_id uuid id0) (clock w)
          (filter (λ e, e.1 ∉ overflow (zset_at (store w) (ids_key f)) n)
                  (zset_at (store w) (ids_key f))).
Proof.
  intros Hb Hs Hidle.
  set (w0 := set_multi [] (log Acquired w)).
  set (wx := at_exec f n item (assigned_id uuid id0) w0).
  destruct (at_exec_still f n item (assigned_id uuid id0) w0)
    as (Hst & Hq & Hm); [done|]. fold wx in Hst, Hq, Hm.
  assert (dirty (link wx) = false) as Hd.
  { unfold wx. rewrite at_exec_quiet by done. cbn [w0 set_multi log link].
    by rewrite Hidle. }
  exists (finish f item (assigned_id uuid id0) callback wx). split; [|split].
  - unfold perform, entry, publish, feedPublish. rewrite Hb, Hs.
    cbn [length Nat.add run run_proc]. fold w0.
    assert (target f (Publish uuid item id0 callback) L_publish_attempt
            = publish_attempt f n item (assigned_id uuid id0) callback)
      as -> by (unfold target; by rewrite Hb).
    rewrite attempt_run. cbv zeta. fold wx. rewrite Hd.
    unfold finish. by rewrite announce_run.
  - unfold finish. rewrite announce_run. cbn [fst].
    assert (∀ w1, sched ((if callback
                          then log (Called [Str item; Str (assigned_id uuid id0)])
                          else λ w, w) w1) = sched w1) as ->
      by by destruct callback.
    rewrite send_sched. cbn [accepted log set_server sched]. by rewrite Hq.
  - unfold finish. rewrite announce_run. cbn [fst].
    assert (∀ w1, store ((if callback
                          then log (Called [Str item; Str (assigned_id uuid id0)])
                          else λ w, w) w1) = store w1) as ->
      by by destruct callback.
    unfold send. cbn [fst snd serve exec_cmd log set_server store].
    rewrite zset_at_deliver, arrive_quiet by done.
    cbn [accepted log set_server store]. rewrite Hm, Hst.
    cbn [w0 set_multi log multi store clock fst].
    rewrite (batch_index f item (assigned_id uuid id0) _ (clock w) [] (store w)).
    done.
Qed.

(** X12. With no other client at work, a publish of a new id on a feed with
    a positive [max_length], stamped later than every entry of the index,
    followed by [getIds]: the callback of [getIds] receives the ids that
    the index held, without the first [len - max_length + 1] of them when
    this is positive, and the new id after them. *)
Theorem publish_then_get_ids f n uuid item callback w :
  max_length f = Some n → 0 < n →
  sched w = [] → link w = idle →
  NoDup (zset_at (store w) (ids_key f)).*1 →
  uuid ∉ (zset_at (store w) (ids_key f)).*1 →
  Forall (λ e, e.2 < clock w) (zset_at (store w) (ids_key f)) →
  let zs := zset_at (store w) (ids_key f) in
  ∃ w1 w2,
    perform f (Publish uuid item None callback) w = Some (w1, true)
    ∧ perform f GetIds w1 = Some (w2, true)
    ∧ calls (events_since w1 w2)
      = [[Null;
          Arr (Str <$> (drop (Z.to_nat (Z.of_nat (length zs) - n + 1)) zs.*1
                        ++ [uuid]))]].
Proof.
  intros Hm Hn Hs Hidle Hnd Hnew Hold zs.
  destruct (quiet_publish f n uuid item None callback w
              (bounded_positive f n Hm Hn) Hs Hidle) as (w1 & Hrun & Hs1 & Hz).
  exists w1. eexists. split; [exact Hrun|]. split; [apply get_ids_run|].
  erewrite events_since_app; last first.
  { cbn [log trace]. rewrite arrive_trace, <- app_assoc. reflexivity. }
  cbn [calls omap call_of]. do 4 f_equal.
  rewrite arrive_quiet, Hz by done. fold zs. cbn [assigned_id default].
  unfold overflow. rewrite zset_range_lowest by done.
  replace (Z.to_nat (Z.max 0 (Z.of_nat (length zs) - n + 1)))
    with (Z.to_nat (Z.of_nat (length zs) - n + 1)) by lia.
  rewrite <- fmap_take, (filter_after_prefix fst) by done.
  unfold zset_add, zset_rem. rewrite filter_all.
  - rewrite zset_insert_last by by apply Forall_drop.
    by rewrite fmap_app, fmap_drop.
  - intros e He Heq. apply Hnew. apply list_elem_of_fmap. exists e.
    split; [done|]. by eapply subseteq_drop.
Qed.



(** ** Subscriptions *)

Section listen.

Variable f : feed.
Implicit Types (s : subscriber) (cb : callbacks) (cbs : list callbacks).

Lemma feedSubscribe_first cb s :
  subscribed s = false →
  feedSubscribe f cb s
  = Subscriber true (listeners s ++ feed_events f cb)
               (idle_listeners s ++ [Call (done_callback cb)]) (timers s)
               (subscriptions s ++ feed_channels f) (ran s).
Proof.
  destruct s as [sub ls il tm chs rn]. cbn [subscribed]. intros ->.
  cbv [feedSubscribe subscribe_feed set_subscribed once_idle subscribe on
       subscribed listeners idle_listeners timers subscriptions ran negb].
  unfold feed_events, feed_channels. by rewrite <- !app_assoc.
Qed.

Lemma feedSubscribe_again cb s :
  subscribed s = true →
  feedSubscribe f cb s
  = Subscriber true (listeners s ++ feed_events f cb) (idle_listeners s)
               (timers s) (subscriptions s)
               (ran s ++ [Call (done_callback cb)]).
Proof.
  destruct s as [sub ls il tm chs rn]. cbn [subscribed]. intros ->.
  cbv [feedSubscribe perform_action on
       subscribed listeners idle_listeners timers subscriptions ran negb].
  unfold feed_events. by rewrite <- !app_assoc.
Qed.

Lemma subscribe_all_again cbs s :
  subscribed s = true →
  subscribe_all f cbs s
  = Subscriber true (listeners s ++ (cbs ≫= feed_events f)) (idle_listeners s)
               (timers s) (subscriptions s)
               (ran s ++ (Call ∘ done_callback <$> cbs)).
Proof.
  revert s. induction cbs as [|cb cbs IH]; intros s Hs.
  - destruct s as [sub ls il tm chs rn]. cbn in *. subst.
    by rewrite !app_nil_r.
  - cbn [subscribe_all foldl].
    fold (subscribe_all f cbs (feedSubscribe f cb s)).
    rewrite IH by by rewrite feedSubscribe_again.
    rewrite feedSubscribe_again by done.
    cbn [listeners idle_listeners timers subscriptions ran].
    by rewrite <- !app_assoc.
Qed.

Lemma feedReady_eq s :
  feedReady f s
  = Subscriber true (listeners s) (idle_listeners s ++ [Emit "ready"])
               (timers s ++ [(100, Emit "ready")])
               (subscriptions s ++ feed_channels f) (ran s).
Proof.
  destruct s as [sub ls il tm chs rn].
  cbv [feedReady subscribe_feed set_subscribed set_timeout once_idle subscribe
       subscribed listeners idle_listeners timers subscriptions ran].
  unfold feed_channels. by rewrite <- !app_assoc.
Qed.

End listen.

(** X13. However many times [subscribe] is called on a Feed object, the
    listening connection is asked to subscribe at most once, to the four
    channels of the feed, and not at all when the feed was subscribed
    before; each call adds its four listeners again, after those of the
    calls before it. *)
Theorem subscribe_sends_channels_once f cb cbs s :
  let s' := subscribe_all f (cb :: cbs) s in
  subscribed s' = true
  ∧ subscriptions s'
    = subscriptions s ++ (if subscribed s then [] else feed_channels f)
  ∧ listeners s' = listeners s ++ ((cb :: cbs) ≫= feed_events f)
  ∧ timers s' = timers s.
Proof.
  cbv zeta. cbn [subscribe_all foldl].
  fold (subscribe_all f cbs (feedSubscribe f cb s)).
  destruct (subscribed s) eqn:Hs.
  - rewrite subscribe_all_again by by rewrite feedSubscribe_again.
    rewrite feedSubscribe_again by done.
    cbn [subscribed listeners idle_listeners timers subscriptions ran mbind
         list_bind].
    by rewrite app_nil_r, <- !app_assoc.
  - rewrite subscribe_all_again by by rewrite feedSubscribe_first.
    rewrite feedSubscribe_first by done.
    cbn [subscribed listeners idle_listeners timers subscriptions ran mbind
         list_bind].
    by rewrite <- !app_assoc.
Qed.

(** X14. The first [subscribe] on a Feed object calls its done callback when
    the listening connection goes idle; every later one calls it before it
    returns. Of several calls made in a row the first caller is the last
    to be told, and the others are told before the connection has
    answered. *)
Theorem done_callbacks_in_turn f cb cbs s :
  subscribed s = false → idle_listeners s = [] →
  let s' := subscribe_all f (cb :: cbs) s in
  ran s' = ran s ++ (Call ∘ done_callback <$> cbs)
  ∧ ran (emit_idle s')
    = ran s ++ (Call ∘ done_callback <$> cbs) ++ [Call (done_callback cb)]
  ∧ ran (emit_idle (emit_idle s')) = ran (emit_idle s').
Proof.
  intros Hs Hi. cbv zeta. cbn [subscribe_all foldl].
  fold (subscribe_all f cbs (feedSubscribe f cb s)).
  rewrite subscribe_all_again by by rewrite feedSubscribe_first.
  rewrite feedSubscribe_first by done.
  unfold emit_idle.
  cbn [subscribed listeners idle_listeners timers subscriptions ran].
  rewrite Hi. cbn [app]. by rewrite !app_nil_r, <- !app_assoc.
Qed.

(** X15. [ready] asks for the four channels whether or not the feed is
    subscribed already, and emits 'ready' twice on a Feed object with
    nothing else pending: once when the listening connection goes idle and
    once when the 100 ms of its timer are over, whichever comes first, and
    not before. *)
Theorem ready_emitted_twice f s dt dt' :
  idle_listeners s = [] → timers s = [] → 100 ≤ dt → 0 ≤ dt' < 100 →
  subscriptions (feedReady f s) = subscriptions s ++ feed_channels f
  ∧ subscribed (feedReady f s) = true
  ∧ ran (elapse dt' (feedReady f s)) = ran s
  ∧ ran (elapse dt (emit_idle (feedReady f s)))
    = ran s ++ [Emit "ready"; Emit "ready"]
  ∧ ran (emit_idle (elapse dt (feedReady f s)))
    = ran s ++ [Emit "ready"; Emit "ready"]
  ∧ idle_listeners (emit_idle (elapse dt (feedReady f s))) = []
  ∧ timers (emit_idle (elapse dt (feedReady f s))) = [].
Proof.
  intros Hi Ht Hdt Hdt'. rewrite feedReady_eq, Hi, Ht.
  unfold emit_idle, elapse.
  cbn [subscribed listeners idle_listeners timers subscriptions ran app].
  rewrite !filter_cons, !filter_nil. cbn [fst snd].
  repeat case_decide; try lia.
  cbn [fmap list_fmap app snd]. rewrite ?app_nil_r, <- ?app_assoc. done.
Qed.

(** X16. [ready] and [subscribe] do not commute. When [subscribe] comes
    first on a Feed object that is not subscribed, [ready] asks for the
    four channels a second time; when [ready] comes first, [subscribe]
    asks for nothing and calls its done callback before it returns, before
    any 'ready' is emitted. *)
Theorem ready_and_subscribe_in_either_order f cb s :
  subscriptions (feedReady f (feedSubscribe f cb s))
  = subscriptions s ++ (if subscribed s then [] else feed_channels f)
    ++ feed_channels f
  ∧ subscriptions (feedSubscribe f cb (feedReady f s))
    = subscriptions s ++ feed_channels f
  ∧ ran (feedSubscribe f cb (feedReady f s))
    = ran s ++ [Call (done_callback cb)].
Proof.
  rewrite !feedReady_eq. split; [|split].
  - destruct (subscribed s) eqn:Hs.
    + by rewrite feedSubscribe_again.
    + rewrite feedSubscribe_first by done.
      cbn [subscriptions]. by rewrite <- app_assoc.
  - by rewrite feedSubscribe_again.
  - by rewrite feedSubscribe_again.
Qed.

(** ** The payload of a notice *)

Lemma payload_split s s' t t' :
  nul_free s = true → nul_free s' = true →
  concat s (concat nul t) = concat s' (concat nul t') → s = s' ∧ t = t'.
Proof.
  unfold concat, nul. revert s'. induction s as [|a s IH]; intros [|a' s'];
    cbn; intros Hs Hs' Heq.
  - by simplify_eq.
  - by simplify_eq.
  - by simplify_eq.
  - apply andb_prop in Hs as [_ Hs]. apply andb_prop in Hs' as [_ Hs'].
    injection Heq as -> Heq. destruct (IH s' Hs Hs' Heq) as [-> ->]. done.
Qed.

(** X17. The payload of a publish or edit notice, the id, a NUL and the
    item, gives back the id and the item when ids hold no NUL: two
    notices with the same payload are of the same id and the same item. *)
Theorem notice_payload_determines f item id callback rs
    f' item' id' callback' rs' :
  nul_free id = true → nul_free id' = true →
  payload_of (announce f item id callback rs)
  = payload_of (announce f' item' id' callback' rs') →
  id = id' ∧ item = item'.
Proof.
  intros Hid Hid' Heq. unfold announce in Heq. cbn [payload_of] in Heq.
  injection Heq as Heq. by apply payload_split.
Qed.

(** An id with a NUL in it makes the payload ambiguous. *)
Lemma notice_payload_ambiguous f :
  payload_of (announce f "c" (concat "a" (concat nul "b")) true [])
  = payload_of (announce f (concat "b" (concat nul "c")) "a" true []).
Proof. reflexivity. Qed.

(** ** More theorems at concrete inputs *)

Lemma in_step_dom f d :
  dom (hash_at d (items_key f)) = list_to_set (zset_at d (ids_key f)).*1 →
  in_step f d.
Proof.
  intros Hd x. rewrite <- elem_of_dom, Hd. by rewrite elem_of_list_to_set.
Qed.

Lemma unbounded_publish_appends_witness :
  (max_length unbounded_news = None ∨ max_length unbounded_news = Some 0)
  ∧ link quiet = idle
  ∧ ∃ w' cm,
      perform unbounded_news publish_c1 quiet = Some (w', true)
      ∧ commits (events_since quiet w') = [cm]
      ∧ count is_executed (events_since quiet w') = 1%nat
      ∧ batch cm = item_cmds unbounded_news "C" "c1" (clock quiet)
      ∧ after cm = (exec_batch (batch cm) (before cm)).1
      ∧ (∀ x, x ∈ (zset_at (before cm) (ids_key unbounded_news)).*1 →
              x ∈ (zset_at (after cm) (ids_key unbounded_news)).*1)
      ∧ ("c1" ∉ (zset_at (before cm) (ids_key unbounded_news)).*1 →
         length (zset_at (after cm) (ids_key unbounded_news))
         = S (length (zset_at (before cm) (ids_key unbounded_news)))).
Proof.
  split; [by left|]. split; [reflexivity|].
  apply (unbounded_publish_appends unbounded_news "c1" "C" None true quiet);
    [by left|reflexivity].
Defined.

Lemma publish_after_retract_throws_witness :
  let w1 := next unbounded_news (Retract "zz" true) interrupted in
  (max_length unbounded_news = None ∨ max_length unbounded_news = Some 0)
  ∧ perform unbounded_news (Retract "zz" true) interrupted = Some (w1, true)
  ∧ zset_at (store (arrive w1)) (ids_key unbounded_news)
    ≠ zset_at (store w1) (ids_key unbounded_news)
  ∧ ∃ w2 q,
      perform unbounded_news publish_c1 w1 = Some (w2, false)
      ∧ events_since w1 w2
        = [Acquired;
           Executed q Null (store (arrive w1)) (store (arrive w1));
           Released; Thrown]
      ∧ store w2 = store (arrive w1).
Proof.
  intros w1.
  assert (perform unbounded_news (Retract "zz" true) interrupted = Some (w1, true))
    as Hret by (vm_compute; reflexivity).
  assert (zset_at (store (arrive w1)) (ids_key unbounded_news)
          ≠ zset_at (store w1) (ids_key unbounded_news)) as Hne
    by (vm_compute; discriminate).
  split; [by left|]. split; [exact Hret|]. split; [exact Hne|].
  apply (publish_after_retract_throws unbounded_news "zz" true "c1" "C" None true
           interrupted w1); [by left|exact Hret|exact Hne].
Defined.

Lemma publish_counts_attempts_witness :
  let w' := next news publish_c1 racing in
  perform news publish_c1 racing = Some (w', true)
  ∧ ∃ cm,
      commits (events_since racing w') = [cm]
      ∧ counter_at (after cm) (publishes_key news)
        = counter_at (before cm) (publishes_key news)
          + Z.of_nat (count is_executed (events_since racing w')).
Proof.
  intros w'.
  assert (perform news publish_c1 racing = Some (w', true)) as Hrun
    by (vm_compute; reflexivity).
  split; [exact Hrun|].
  apply (publish_counts_attempts news "c1" "C" None true racing w' Hrun).
Defined.

Lemma evicted_item_is_gone_witness :
  let w1 := next news publish_c1 quiet in
  let cm := the_commit quiet w1 in
  perform news publish_c1 quiet = Some (w1, true)
  ∧ cm ∈ commits (events_since quiet w1)
  ∧ "a1" ∈ evicted news (before cm)
  ∧ "a1" ≠ assigned_id "c1" None
  ∧ leaves_field (items_key news) "a1" (sched quiet)
  ∧ ("a1" ∉ (zset_at (after cm) (ids_key news)).*1)
  ∧ ∃ w2,
      perform news (GetItem "a1") w1 = Some (w2, true)
      ∧ events_since w1 w2
        = [Sent (Cmd HGET [Str (items_key news); Str "a1"]) Null;
           Called [Null; Null]].
Proof.
  intros w1 cm.
  assert (perform news publish_c1 quiet = Some (w1, true)) as Hrun
    by (vm_compute; reflexivity).
  assert (cm ∈ commits (events_since quiet w1)) as Hcm by (vm_compute; left).
  assert ("a1" ∈ evicted news (before cm)) as Hx by (vm_compute; left).
  assert ("a1" ≠ assigned_id "c1" None) as Hne by discriminate.
  assert (leaves_field (items_key news) "a1" (sched quiet)) as Hq
    by constructor.
  split; [exact Hrun|]. split; [exact Hcm|]. split; [exact Hx|].
  split; [exact Hne|]. split; [exact Hq|].
  apply (evicted_item_is_gone news "c1" "C" None true quiet w1 cm "a1"
           Hrun Hcm Hx Hne Hq).
Defined.


Lemma publish_keeps_in_step_witness :
  let w' := next news publish_c1 quiet in
  let cm := the_commit quiet w' in
  perform news publish_c1 quiet = Some (w', true)
  ∧ cm ∈ commits (events_since quiet w')
  ∧ in_step news (before cm)
  ∧ in_step news (after cm).
Proof.
  intros w' cm.
  assert (perform news publish_c1 quiet = Some (w', true)) as Hrun
    by (vm_compute; reflexivity).
  assert (cm ∈ commits (events_since quiet w')) as Hcm by (vm_compute; left).
  assert (in_step news (before cm)) as Hin
    by (apply in_step_dom; vm_compute; reflexivity).
  split; [exact Hrun|]. split; [exact Hcm|]. split; [exact Hin|].
  apply (publish_keeps_in_step news "c1" "C" None true quiet w' cm Hrun Hcm Hin).
Defined.

Lemma commit_delivers_retract_notices_witness :
  let w' := next news publish_c1 racing in
  let cm := the_commit racing w' in
  perform news publish_c1 racing = Some (w', true)
  ∧ cm ∈ commits (events_since racing w')
  ∧ ∃ old,
      delivered (after cm)
      = delivered (before cm) ++ old
        ++ retract_notices news (evicted news (before cm))
      ∧ Forall (λ m, m.1 = retract_chan news) old
      ∧ (count is_executed (events_since racing w') = 1%nat → old = []).
Proof.
  intros w' cm.
  assert (perform news publish_c1 racing = Some (w', true)) as Hrun
    by (vm_compute; reflexivity).
  assert (cm ∈ commits (events_since racing w')) as Hcm by (vm_compute; left).
  split; [exact Hrun|]. split; [exact Hcm|].
  apply (commit_delivers_retract_notices news "c1" "C" None true racing w' cm
           Hrun Hcm).
Defined.

Lemma negative_bound_evicts_witness :
  let w' := next shrinking_news publish_c1 quiet in
  let cm := the_commit quiet w' in
  let zs := zset_at (before cm) (ids_key shrinking_news) in
  max_length shrinking_news = Some (-1)
  ∧ -1 < 0
  ∧ perform shrinking_news publish_c1 quiet = Some (w', true)
  ∧ cm ∈ commits (events_since quiet w')
  ∧ evicted shrinking_news (before cm) = take (Z.to_nat (1 - -1)) zs.*1
  ∧ (∀ x, x ∈ evicted shrinking_news (before cm) → x ≠ assigned_id "c1" None →
          (x ∉ (zset_at (after cm) (ids_key shrinking_news)).*1)
          ∧ (hash_at (after cm) (items_key shrinking_news) !! x = None))
  ∧ (length (zset_at (after cm) (ids_key shrinking_news))
     ≤ S (length zs - Z.to_nat (1 - -1)))%nat.
Proof.
  intros w' cm zs.
  assert (perform shrinking_news publish_c1 quiet = Some (w', true)) as Hrun
    by (vm_compute; reflexivity).
  assert (cm ∈ commits (events_since quiet w')) as Hcm by (vm_compute; left).
  split; [reflexivity|]. split; [lia|]. split; [exact Hrun|]. split; [exact Hcm|].
  apply (negative_bound_evicts shrinking_news (-1) "c1" "C" None true quiet w' cm);
    [reflexivity|lia|exact Hrun|exact Hcm].
Defined.

Lemma publish_locks_once_witness :
  let w' := next news publish_c1 racing in
  perform news publish_c1 racing = Some (w', true)
  ∧ ∃ tr,
      events_since racing w' = Acquired :: tr
      ∧ count is_acquired tr = 0%nat
      ∧ count is_released tr = count is_executed tr
      ∧ count is_executed tr = S (count is_rejected tr).
Proof.
  intros w'.
  assert (perform news publish_c1 racing = Some (w', true)) as Hrun
    by (vm_compute; reflexivity).
  split; [exact Hrun|].
  apply (publish_locks_once news "c1" "C" None true racing w' Hrun).
Defined.

Lemma done_callbacks_in_turn_witness :
  let s' := subscribe_all news [first_caller; second_caller] unsubscribed in
  subscribed unsubscribed = false
  ∧ idle_listeners unsubscribed = []
  ∧ ran s' = ran unsubscribed ++ (Call ∘ done_callback <$> [second_caller])
  ∧ ran (emit_idle s')
    = ran unsubscribed ++ (Call ∘ done_callback <$> [second_caller])
      ++ [Call (done_callback first_caller)]
  ∧ ran (emit_idle (emit_idle s')) = ran (emit_idle s').
Proof.
  intros s'. split; [reflexivity|]. split; [reflexivity|].
  apply (done_callbacks_in_turn news first_caller [second_caller] unsubscribed);
    reflexivity.
Defined.

Lemma ready_emitted_twice_witness :
  idle_listeners unsubscribed = []
  ∧ timers unsubscribed = []
  ∧ 100 ≤ 100
  ∧ 0 ≤ 99 < 100
  ∧ subscriptions (feedReady news unsubscribed)
    = subscriptions unsubscribed ++ feed_channels news
  ∧ subscribed (feedReady news unsubscribed) = true
  ∧ ran (elapse 99 (feedReady news unsubscribed)) = ran unsubscribed
  ∧ ran (elapse 100 (emit_idle (feedReady news unsubscribed)))
    = ran unsubscribed ++ [Emit "ready"; Emit "ready"]
  ∧ ran (emit_idle (elapse 100 (feedReady news unsubscribed)))
    = ran unsubscribed ++ [Emit "ready"; Emit "ready"]
  ∧ idle_listeners (emit_idle (elapse 100 (feedReady news unsubscribed))) = []
  ∧ timers (emit_idle (elapse 100 (feedReady news unsubscribed))) = [].
Proof.
  split; [reflexivity|]. split; [reflexivity|]. split; [lia|]. split; [lia|].
  apply (ready_emitted_twice news unsubscribed 100 99); [reflexivity..|lia|lia].
Defined.

Lemma publish_then_get_ids_witness :
  let zs := zset_at (store quiet) (ids_key news) in
  max_length news = Some 2
  ∧ 0 < 2
  ∧ sched quiet = []
  ∧ link quiet = idle
  ∧ NoDup zs.*1
  ∧ ("c1" ∉ zs.*1)
  ∧ Forall (λ e, e.2 < clock quiet) zs
  ∧ ∃ w1 w2,
      perform news (Publish "c1" "C" None true) quiet = Some (w1, true)
      ∧ perform news GetIds w1 = Some (w2, true)
      ∧ calls (events_since w1 w2)
        = [[Null;
            Arr (Str <$> (drop (Z.to_nat (Z.of_nat (length zs) - 2 + 1)) zs.*1
                          ++ ["c1"]))]].
Proof.
  intros zs.
  assert (NoDup zs.*1) as Hnd
    by (apply (bool_decide_unpack _); vm_compute; exact I).
  assert ("c1" ∉ zs.*1) as Hnew
    by (apply (bool_decide_unpack _); vm_compute; exact I).
  assert (Forall (λ e, e.2 < clock quiet) zs) as Hold
    by (apply (bool_decide_unpack _); vm_compute; exact I).
  split; [reflexivity|]. split; [lia|]. split; [reflexivity|].
  split; [reflexivity|]. split; [exact Hnd|]. split; [exact Hnew|].
  split; [exact Hold|].
  apply (publish_then_get_ids news 2 "c1" "C" true quiet);
    [reflexivity|lia|reflexivity|reflexivity|exact Hnd|exact Hnew|exact Hold].
Defined.

Lemma notice_payload_determines_witness :
  nul_free "a1" = true
  ∧ nul_free "a1" = true
  ∧ payload_of (announce news "A" "a1" true [])
    = payload_of (announce news "A" "a1" false [Num 1])
  ∧ "a1" = "a1" ∧ "A" = "A".
Proof.
  split; [reflexivity|]. split; [reflexivity|]. split; [reflexivity|].
  apply (notice_payload_determines news "A" "a1" true [] news "A" "a1" false [Num 1]);
    reflexivity.
Defined.
